(** * saythanks/storage.py: the storage models [Note] and [Inbox]

    A shallow embedding of the persistence layer of saythanks.io.  The
    module talks to a PostgreSQL database through one process-wide
    connection [conn] and writes to a logger; both are modelled as explicit
    state ([World]).  A Python exception is a value of [exn]; the state
    written before the exception was raised is kept, as in Python. *)

From Stdlib Require Import List ZArith String Ascii Bool Lia Arith.
From Stdlib Require Import Permutation Sorted Finite.
Import ListNotations.

(** ** Values *)

(** The database-assigned identifier of a note.  It is opaque to the
    program; the model numbers the identifiers. *)
Definition UUID := nat.

(** [datetime] values, as a count of clock ticks. *)
Definition datetime := Z.
Bind Scope Z_scope with datetime.

(** The exceptions the module can meet. *)
Inductive exn : Type :=
| IndexError                 (* r[0] on an empty list of rows *)
| UnboundLocalError          (* a local variable read before assignment *)
| AttributeError             (* an attribute of None *)
| ZeroDivisionError          (* x // 0 *)
| UniqueViolation            (* errors.lookup('23505') *)
| InFailedSqlTransaction     (* errors.lookup('25P02') *)
| InvalidRowCountInLimitClause          (* SQLSTATE 2201W: negative LIMIT *)
| InvalidRowCountInResultOffsetClause   (* SQLSTATE 2201X: negative OFFSET *)
| InvalidEscapeSequence.     (* SQLSTATE 22025: LIKE pattern ends with the escape *)

Definition exn_eqb (a b : exn) : bool :=
  match a, b with
  | IndexError, IndexError
  | UnboundLocalError, UnboundLocalError
  | AttributeError, AttributeError
  | ZeroDivisionError, ZeroDivisionError
  | UniqueViolation, UniqueViolation
  | InFailedSqlTransaction, InFailedSqlTransaction
  | InvalidRowCountInLimitClause, InvalidRowCountInLimitClause
  | InvalidRowCountInResultOffsetClause, InvalidRowCountInResultOffsetClause
  | InvalidEscapeSequence, InvalidEscapeSequence => true
  | _, _ => false
  end.

(** [IndexError] is what Python raises for any out-of-range subscript: the
    language's generic indexing fault. *)
Definition generic_indexing_fault (e : exn) : bool := exn_eqb e IndexError.

(** ** Output: the logger and the standard streams *)

Inductive level : Type := LvlInfo | LvlError.

Inductive message : Type :=
| Text (s : string)
| ErrorStoringNote (e : exn)       (* f"Error storing note: {str(e)}" *)
| NoteStoredWithUUID (u : UUID)    (* f"Note stored with UUID: {self.uuid}" *)
| NoneValue.                       (* None, what traceback.print_exc() returns *)

Inductive event : Type :=
| Stdout (m : message)             (* print(...) *)
| Traceback (e : exn)              (* traceback.print_exc(), on stderr *)
| Logged (lvl : level) (m : message).   (* logger.error / logging.error / logging.info *)

(** ** The relational store *)

(** Modelled from the spec: the schema of the two tables is not among the
    sources.  Section 6 gives
    [notes(uuid pk, body, byline, inboxes_auth_id fk, archived bool,
    timestamp, audio_path optional)] and
    [inboxes(slug unique, auth_id unique, email, email_enabled bool,
    enabled bool)]; section 3 gives the defaults of [archived] (false),
    [uuid] (assigned by storage) and [timestamp] (default-now).  [None] in a
    text column is SQL NULL. *)
Record NoteRow : Type := mkNoteRow {
  n_uuid : UUID;
  n_body : option string;
  n_byline : option string;
  n_inboxes_auth_id : string;
  n_archived : bool;
  n_timestamp : datetime;
  n_audio_path : option string
}.

Record InboxRow : Type := mkInboxRow {
  i_slug : string;
  i_auth_id : string;
  i_email : string;
  i_email_enabled : bool;
  i_enabled : bool
}.

(** The database behind [conn].  A table is the list of its rows in the
    order a scan without ORDER BY returns them.  The schema facts the code
    depends on but the sources do not fix are fields: whether [notes] has
    the column [audio_path], and the defaults of the two inbox flags.
    [next_uuid] is the state of the identifier generator, [clock] the
    engine's now(), and [failed_transaction] says that the connection's
    current transaction is aborted (every statement then fails with
    SQLSTATE 25P02). *)
Record Database : Type := mkDatabase {
  notes_table : list NoteRow;
  inboxes_table : list InboxRow;
  audio_path_column : bool;
  default_email_enabled : bool;
  default_enabled : bool;
  next_uuid : UUID;
  clock : datetime;
  failed_transaction : bool
}.

Definition set_notes_table (d : Database) (ns : list NoteRow) : Database :=
  mkDatabase ns (inboxes_table d) (audio_path_column d)
    (default_email_enabled d) (default_enabled d) (next_uuid d) (clock d)
    (failed_transaction d).

Definition set_inboxes_table (d : Database) (bs : list InboxRow) : Database :=
  mkDatabase (notes_table d) bs (audio_path_column d)
    (default_email_enabled d) (default_enabled d) (next_uuid d) (clock d)
    (failed_transaction d).

Definition set_next_uuid (d : Database) (u : UUID) : Database :=
  mkDatabase (notes_table d) (inboxes_table d) (audio_path_column d)
    (default_email_enabled d) (default_enabled d) u (clock d)
    (failed_transaction d).

(** The process state: the module globals [conn] and [logger] (with the
    standard streams), oldest event first. *)
Record World : Type := mkWorld {
  conn : Database;
  output : list event
}.

(** ** The monad of the module's operations *)

Definition M (A : Type) : Type := World -> (exn + A) * World.

Definition ret {A} (a : A) : M A := fun w => (inr a, w).

Definition bind {A B} (m : M A) (k : A -> M B) : M B :=
  fun w =>
    match m w with
    | (inl e, w') => (inl e, w')
    | (inr a, w') => k a w'
    end.

Definition raise {A} (e : exn) : M A := fun w => (inl e, w).

(** [try: m  except ...: h e]; the handler re-raises what it does not
    catch. *)
Definition try_except {A} (m : M A) (h : exn -> M A) : M A :=
  fun w =>
    match m w with
    | (inl e, w') => h e w'
    | (inr a, w') => (inr a, w')
    end.

Definition emit (ev : event) : M unit :=
  fun w => (inr tt, mkWorld (conn w) (output w ++ [ev])).

Declare Scope py_scope.
Delimit Scope py_scope with py.
Notation "x <- m ;; k" := (bind m (fun x => k))
  (at level 100, m at next level, right associativity) : py_scope.
Notation "m ;; k" := (bind m (fun _ => k))
  (at level 100, right associativity) : py_scope.
Open Scope py_scope.

(** [conn.execute(q, ...)]: runs one statement against the database.  A
    statement either fails with a database error and leaves the tables as
    they were, or yields a result and the new database.  A database error
    reaches the caller as the exception class the module looks up for its
    SQLSTATE, which is what the [except] clauses of the module name. *)
Definition statement (A : Type) : Type := Database -> exn + (A * Database).

Definition conn_execute {A} (q : statement A) : M A :=
  fun w =>
    if failed_transaction (conn w) then (inl InFailedSqlTransaction, w)
    else match q (conn w) with
         | inl e => (inl e, w)
         | inr (a, d) => (inr a, mkWorld d (output w))
         end.

(** A statement that only reads. *)
Definition query {A} (f : Database -> A) : statement A :=
  fun d => inr (f d, d).

(** [r[i]] on a Python list. *)
Definition getitem {A} (r : list A) (i : nat) : M A :=
  match nth_error r i with
  | Some x => ret x
  | None => raise IndexError
  end.

(** [a // b] on Python integers: floor division. *)
Definition floordiv (a b : Z) : M Z :=
  if (b =? 0)%Z then raise ZeroDivisionError else ret (a / b)%Z.

(** Truth value of an optional string: [None] and [''] are false. *)
Definition truthy (s : option string) : bool :=
  match s with
  | None => false
  | Some EmptyString => false
  | Some _ => true
  end.

(** ** SQL expressions *)

(** LOWER(s) and str.lower(), on ASCII text. *)
Definition lower_ascii (c : ascii) : ascii :=
  let n := nat_of_ascii c in
  if (65 <=? n) && (n <=? 90) then ascii_of_nat (n + 32) else c.

Fixpoint lower (s : string) : string :=
  match s with
  | EmptyString => EmptyString
  | String c s' => String (lower_ascii c) (lower s')
  end.

(** A LIKE pattern: [%] matches any run of characters, [_] any one
    character, and a backslash makes the next character literal.  A
    pattern that ends with a lone backslash is rejected. *)
Inductive like_token : Type :=
| LikeAny
| LikeOne
| LikeChar (c : ascii).

Fixpoint like_tokens (p : list ascii) : option (list like_token) :=
  match p with
  | [] => Some []
  | c :: rest =>
      if Ascii.eqb c "\" then
        match rest with
        | [] => None
        | c' :: rest' => option_map (cons (LikeChar c')) (like_tokens rest')
        end
      else if Ascii.eqb c "%" then option_map (cons LikeAny) (like_tokens rest)
      else if Ascii.eqb c "_" then option_map (cons LikeOne) (like_tokens rest)
      else option_map (cons (LikeChar c)) (like_tokens rest)
  end.

Fixpoint like_match (pat : list like_token) (s : list ascii) : bool :=
  match pat with
  | [] => match s with [] => true | _ :: _ => false end
  | LikeAny :: pat' =>
      (fix any (s : list ascii) : bool :=
         like_match pat' s
         || match s with [] => false | _ :: s' => any s' end) s
  | LikeOne :: pat' =>
      match s with [] => false | _ :: s' => like_match pat' s' end
  | LikeChar c :: pat' =>
      match s with
      | [] => false
      | c' :: s' => Ascii.eqb c c' && like_match pat' s'
      end
  end.

(** [LOWER(col) LIKE pat] as a WHERE condition: NULL is not selected. *)
Definition lower_like (col : option string) (pat : list like_token) : bool :=
  match col with
  | None => false
  | Some s => like_match pat (list_ascii_of_string (lower s))
  end.

(** ['%' || :param || '%'] *)
Definition search_pattern (param : string) : list ascii :=
  "%"%char :: list_ascii_of_string param ++ ["%"%char].

(** ORDER BY timestamp DESC.  The engine leaves the order of rows with
    equal timestamps open; the model keeps them in scan order. *)
Fixpoint insert_desc (r : NoteRow) (l : list NoteRow) : list NoteRow :=
  match l with
  | [] => [r]
  | x :: l' =>
      if (n_timestamp x <=? n_timestamp r)%Z then r :: l
      else x :: insert_desc r l'
  end.

Definition order_by_timestamp_desc (l : list NoteRow) : list NoteRow :=
  fold_right insert_desc [] l.

(** LIMIT :limit OFFSET :offset.  PostgreSQL rejects a negative row count,
    the offset first. *)
Definition limit_offset {A} (limit offset : Z) (rows : list A) : exn + list A :=
  if (offset <? 0)%Z then inl InvalidRowCountInResultOffsetClause
  else if (limit <? 0)%Z then inl InvalidRowCountInLimitClause
  else inr (firstn (Z.to_nat limit) (skipn (Z.to_nat offset) rows)).

(** ** The statements of the module *)

(** SELECT * FROM notes WHERE uuid=:uuid *)
Definition select_notes_by_uuid (uuid : UUID) : statement (list NoteRow) :=
  query (fun d => filter (fun n => n_uuid n =? uuid) (notes_table d)).

(** SELECT EXISTS (SELECT 1 FROM information_schema.columns
    WHERE table_name='notes' AND column_name='audio_path') *)
Definition check_column : statement bool :=
  query audio_path_column.

(** INSERT INTO notes (body, byline, inboxes_auth_id, audio_path)
    VALUES (...) RETURNING uuid.  The engine supplies [uuid], [timestamp]
    and [archived]; [uuid] is the primary key. *)
Definition insert_note_row (body byline : option string) (inbox : string)
    (audio_path : option string) : statement UUID :=
  fun d =>
    let u := next_uuid d in
    if existsb (fun n => n_uuid n =? u) (notes_table d)
    then inl UniqueViolation
    else inr (u, set_next_uuid
                   (set_notes_table d
                      (notes_table d ++
                       [mkNoteRow u body byline inbox false (clock d) audio_path]))
                   (S u)).

Definition insert_note_with_audio (body byline : option string)
    (inbox : string) (audio_path : option string) : statement UUID :=
  insert_note_row body byline inbox audio_path.

(** INSERT INTO notes (body, byline, inboxes_auth_id) VALUES (...)
    RETURNING uuid *)
Definition insert_note (body byline : option string) (inbox : string)
    : statement UUID :=
  insert_note_row body byline inbox None.

(** UPDATE notes SET archived = 't' WHERE uuid = :uuid *)
Definition update_notes_set_archived (uuid : UUID) : statement unit :=
  fun d =>
    inr (tt, set_notes_table d
               (map (fun n =>
                       if n_uuid n =? uuid
                       then mkNoteRow (n_uuid n) (n_body n) (n_byline n)
                              (n_inboxes_auth_id n) true (n_timestamp n)
                              (n_audio_path n)
                       else n)
                    (notes_table d))).

(** SELECT ... FROM inboxes WHERE slug=:slug *)
Definition select_inboxes_by_slug (slug : string) : statement (list InboxRow) :=
  query (fun d => filter (fun b => (i_slug b =? slug)%string) (inboxes_table d)).

(** SELECT * from inboxes where auth_id = :auth_id *)
Definition select_inboxes_by_auth_id (auth_id : string)
    : statement (list InboxRow) :=
  query (fun d =>
           filter (fun b => (i_auth_id b =? auth_id)%string) (inboxes_table d)).

(** INSERT into inboxes (slug, auth_id, email) VALUES (...).  [slug] and
    [auth_id] are unique; the two flags take the schema defaults. *)
Definition insert_inbox (slug auth_id email : string) : statement unit :=
  fun d =>
    if existsb (fun b => (i_slug b =? slug)%string
                         || (i_auth_id b =? auth_id)%string)
         (inboxes_table d)
    then inl UniqueViolation
    else inr (tt, set_inboxes_table d
                    (inboxes_table d ++
                     [mkInboxRow slug auth_id email
                        (default_email_enabled d) (default_enabled d)])).

(** update inboxes set email_enabled = :v where slug = :slug *)
Definition update_inboxes_set_email_enabled (v : bool) (slug : string)
    : statement unit :=
  fun d =>
    inr (tt, set_inboxes_table d
               (map (fun b =>
                       if (i_slug b =? slug)%string
                       then mkInboxRow (i_slug b) (i_auth_id b) (i_email b)
                              v (i_enabled b)
                       else b)
                    (inboxes_table d))).

(** update inboxes set enabled = :v where slug = :slug *)
Definition update_inboxes_set_enabled (v : bool) (slug : string)
    : statement unit :=
  fun d =>
    inr (tt, set_inboxes_table d
               (map (fun b =>
                       if (i_slug b =? slug)%string
                       then mkInboxRow (i_slug b) (i_auth_id b) (i_email b)
                              (i_email_enabled b) v
                       else b)
                    (inboxes_table d))).

(** WHERE inboxes_auth_id = :auth_id AND archived = :archived *)
Definition of_inbox (auth_id : string) (archived : bool) (n : NoteRow) : bool :=
  (n_inboxes_auth_id n =? auth_id)%string && Bool.eqb (n_archived n) archived.

(** SELECT COUNT( * ) FROM notes WHERE inboxes_auth_id = :auth_id
    AND archived = 'f' *)
Definition count_query (auth_id : string) : statement Z :=
  query (fun d =>
           Z.of_nat (List.length (filter (of_inbox auth_id false) (notes_table d)))).

(** SELECT * FROM notes WHERE inboxes_auth_id = :auth_id AND archived = 'f'
    ORDER BY timestamp DESC LIMIT :limit OFFSET :offset *)
Definition notes_query (auth_id : string) (limit offset : Z)
    : statement (list NoteRow) :=
  fun d =>
    match limit_offset limit offset
            (order_by_timestamp_desc
               (filter (of_inbox auth_id false) (notes_table d))) with
    | inl e => inl e
    | inr rows => inr (rows, d)
    end.

(** The WHERE clause of the search. *)
Definition search_where (pat : list like_token) (auth_id : string)
    (n : NoteRow) : bool :=
  (lower_like (n_body n) pat || lower_like (n_byline n) pat)
  && of_inbox auth_id false n.

(** SELECT *, COUNT( * ) OVER() AS total_notes FROM notes
    WHERE (LOWER(body) LIKE '%' || :param || '%'
           OR LOWER(byline) LIKE '%' || :param || '%')
    AND inboxes_auth_id = :auth_id AND archived = 'f'
    ORDER BY timestamp DESC LIMIT :limit OFFSET :offset.
    The window count is taken over all selected rows, before LIMIT and
    OFFSET, and repeated in every returned row. *)
Definition search_query (param auth_id : string) (limit offset : Z)
    : statement (list (NoteRow * Z)) :=
  fun d =>
    match like_tokens (search_pattern param) with
    | None => inl InvalidEscapeSequence
    | Some pat =>
        let selected := filter (search_where pat auth_id) (notes_table d) in
        let total := Z.of_nat (List.length selected) in
        match limit_offset limit offset (order_by_timestamp_desc selected) with
        | inl e => inl e
        | inr rows => inr (map (fun n => (n, total)) rows, d)
        end
    end.

(** SELECT * from notes where inboxes_auth_id = :auth_id and archived = 't' *)
Definition archived_query (auth_id : string) : statement (list NoteRow) :=
  query (fun d => filter (of_inbox auth_id true) (notes_table d)).

(** ** The storage models *)

(** [class Inbox]: a wrapper of a slug. *)
Record Inbox : Type := mkInbox { slug : string }.

(** [Inbox.__init__] *)
Definition Inbox_init (slug : string) : Inbox := mkInbox slug.

(** [class Note].  Every attribute starts as [None]. *)
Record Note : Type := mkNote {
  body : option string;
  byline : option string;
  inbox : option Inbox;
  archived : option bool;
  uuid : option UUID;
  timestamp : option datetime;
  audio_path : option string
}.

(** [Note.__init__] *)
Definition Note_init : Note := mkNote None None None None None None None.

(** The dict returned by [Inbox.notes] and [Inbox.search_notes]. *)
Record NotesPage : Type := mkNotesPage {
  notes : list Note;
  total_notes : Z;
  page : Z;
  total_pages : Z
}.

(** [Inbox.auth_id] (property) *)
Definition Inbox_auth_id (self : Inbox) : M string :=
  r <- conn_execute (select_inboxes_by_slug (slug self)) ;;
  r0 <- getitem r 0 ;;
  ret (i_auth_id r0).

(** [self.inbox.auth_id], where [self.inbox] may still be [None]. *)
Definition inbox_auth_id (i : option Inbox) : M string :=
  match i with
  | None => raise AttributeError
  | Some i => Inbox_auth_id i
  end.

(** [Note.fetch] *)
Definition Note_fetch (uuid : UUID) : M Note :=
  let self := Note_init in
  r <- conn_execute (select_notes_by_uuid uuid) ;;
  r0 <- getitem r 0 ;;
  ret (mkNote (n_body r0) (n_byline r0) (inbox self) (archived self)
         (Some uuid) (timestamp self) (audio_path self)).

(** [Note.from_inbox] *)
Definition Note_from_inbox (inbox : string) (body byline : option string)
    (archived : option bool) (uuid : option UUID)
    (timestamp : option datetime) (audio_path : option string) : Note :=
  mkNote body byline (Some (Inbox_init inbox)) archived uuid timestamp
    audio_path.

(** [Note.does_exist] *)
Definition Note_does_exist (uuid : UUID) : M bool :=
  r <- conn_execute (select_notes_by_uuid uuid) ;;
  ret (negb (List.length r =? 0)).

(** [Note.store].  The locals [q] and [params] are bound in two of the
    three branches only; [None] is the unbound state. *)
Definition Note_store (self : Note) : M Note :=
  try_except
    (has_audio_column <- conn_execute check_column ;;
     q <- (if has_audio_column then
             if truthy (audio_path self) then
               auth_id <- inbox_auth_id (inbox self) ;;
               ret (Some (insert_note_with_audio (body self) (byline self)
                            auth_id (audio_path self)))
             else ret None
           else
             emit (Logged LvlError
                     (Text "Audio path column not available - storing note without audio")) ;;
             auth_id <- inbox_auth_id (inbox self) ;;
             ret (Some (insert_note (body self) (byline self) auth_id))) ;;
     match q with
     | None => raise UnboundLocalError
     | Some q =>
         u <- conn_execute q ;;
         emit (Logged LvlInfo (NoteStoredWithUUID u)) ;;
         ret (mkNote (body self) (byline self) (inbox self) (archived self)
                (Some u) (timestamp self) (audio_path self))
     end)
    (fun e =>
       emit (Logged LvlError (ErrorStoringNote e)) ;;
       raise e).

(** [Note.archive] *)
Definition Note_archive (self : Note) : M unit :=
  match uuid self with
  | Some u => conn_execute (update_notes_set_archived u)
  | None => conn_execute (query (fun _ => tt))   (* uuid = NULL selects no row *)
  end.

(** [Inbox.is_linked] *)
Definition Inbox_is_linked (auth_id : string) : M bool :=
  r <- conn_execute (select_inboxes_by_auth_id auth_id) ;;
  ret (negb (List.length r =? 0)).

(** [Inbox.store] *)
Definition Inbox_store (slug auth_id email : string) : M Inbox :=
  try_except
    (conn_execute (insert_inbox slug auth_id email))
    (fun e =>
       match e with
       | UniqueViolation =>
           emit (Stdout (Text "Duplicate record - ID already exist")) ;;
           emit (Logged LvlError (Text "ID already exist"))
       | _ => raise e
       end) ;;
  ret (Inbox_init slug).

(** [Inbox.does_exist] *)
Definition Inbox_does_exist (slug : string) : M bool :=
  r <- conn_execute (select_inboxes_by_slug slug) ;;
  ret (negb (List.length r =? 0)).

(** [print(traceback.print_exc())] then [logging.error(traceback.print_exc())]:
    [print_exc] writes the traceback and returns [None]. *)
Definition report_traceback (e : exn) : M unit :=
  emit (Traceback e) ;;
  emit (Stdout NoneValue) ;;
  emit (Traceback e) ;;
  emit (Logged LvlError NoneValue).

(** [Inbox.is_email_enabled] *)
Definition Inbox_is_email_enabled (slug : string) : M bool :=
  try_except
    (r <- conn_execute (select_inboxes_by_slug slug) ;;
     r0 <- getitem r 0 ;;
     ret (i_email_enabled r0))
    (fun e =>
       match e with
       | InFailedSqlTransaction => report_traceback e ;; ret false
       | _ => raise e
       end).

(** [Inbox.disable_email] *)
Definition Inbox_disable_email (slug : string) : M unit :=
  conn_execute (update_inboxes_set_email_enabled false slug).

(** [Inbox.enable_email] *)
Definition Inbox_enable_email (slug : string) : M unit :=
  conn_execute (update_inboxes_set_email_enabled true slug).

(** [Inbox.is_enabled] *)
Definition Inbox_is_enabled (slug : string) : M bool :=
  try_except
    (r <- conn_execute (select_inboxes_by_slug slug) ;;
     r0 <- getitem r 0 ;;
     if negb (i_enabled r0) then ret false
     else ret (i_enabled r0))
    (fun e =>
       match e with
       | InFailedSqlTransaction => report_traceback e ;; ret false
       | _ => raise e
       end).

(** [Inbox.disable_account] *)
Definition Inbox_disable_account (slug : string) : M unit :=
  conn_execute (update_inboxes_set_enabled false slug).

(** [Inbox.enable_account] *)
Definition Inbox_enable_account (slug : string) : M unit :=
  conn_execute (update_inboxes_set_enabled true slug).

(** [Inbox.submit_note] *)
Definition Inbox_submit_note (self : Inbox) (body byline : option string)
    (audio_path : option string) : M Note :=
  let note := Note_from_inbox (slug self) body byline (Some false) None None
                audio_path in
  Note_store note.

(** [Inbox.get_email] *)
Definition Inbox_get_email (slug : string) : M string :=
  r <- conn_execute (select_inboxes_by_slug slug) ;;
  r0 <- getitem r 0 ;;
  ret (i_email r0).

(** The Note built from a row of a listing. *)
Definition note_of_row (self : Inbox) (n : NoteRow) : Note :=
  Note_from_inbox (slug self) (n_body n) (n_byline n) (Some (n_archived n))
    (Some (n_uuid n)) (Some (n_timestamp n)) None.

(** [Inbox.notes] *)
Definition Inbox_notes (self : Inbox) (page page_size : Z) : M NotesPage :=
  let offset := ((page - 1) * page_size)%Z in
  auth_id <- Inbox_auth_id self ;;
  total_notes <- conn_execute (count_query auth_id) ;;
  auth_id <- Inbox_auth_id self ;;
  result <- conn_execute (notes_query auth_id page_size offset) ;;
  let notes := map (note_of_row self) result in
  total_pages <- floordiv (total_notes + page_size - 1) page_size ;;
  ret (mkNotesPage notes total_notes page total_pages).

(** [Inbox.search_notes] *)
Definition Inbox_search_notes (self : Inbox) (search_str : string)
    (page page_size : Z) : M NotesPage :=
  let offset := ((page - 1) * page_size)%Z in
  let search_str_lower := lower search_str in
  auth_id <- Inbox_auth_id self ;;
  result <- conn_execute (search_query search_str_lower auth_id page_size offset) ;;
  let notes := map (fun n => note_of_row self (fst n)) result in
  let total_notes := match result with
                     | [] => 0%Z
                     | r0 :: _ => snd r0
                     end in
  total_pages <- floordiv (total_notes + page_size - 1) page_size ;;
  ret (mkNotesPage notes total_notes page total_pages).

(** [Inbox.archived_notes] (property).  The rows come in scan order and
    the list is reversed; the Notes carry no timestamp. *)
Definition Inbox_archived_notes (self : Inbox) : M (list Note) :=
  auth_id <- Inbox_auth_id self ;;
  r <- conn_execute (archived_query auth_id) ;;
  let notes := map (fun n => Note_from_inbox (slug self) (n_body n) (n_byline n)
                               (Some (n_archived n)) (Some (n_uuid n)) None None)
                 r in
  ret (rev notes).

(** SELECT * from notes where inboxes_auth_id = :auth_id and archived = 'f' *)
Definition export_query (auth_id : string) : statement (list NoteRow) :=
  query (fun d => filter (of_inbox auth_id false) (notes_table d)).

(** [Inbox.export].  [tablib.Dataset(r).export(file_format)] belongs to the
    tablib library; it is the parameter [tablib_export], which gets the
    rows and the format and may raise. *)
Definition Inbox_export {B} (tablib_export : list NoteRow -> string -> M B)
    (self : Inbox) (file_format : string) : M B :=
  auth_id <- Inbox_auth_id self ;;
  r <- conn_execute (export_query auth_id) ;;
  tablib_export r file_format.

(** ** Vocabulary of the properties *)

(** The slug has a row in [inboxes]. *)
Definition registered (d : Database) (s : string) : bool :=
  existsb (fun b => (i_slug b =? s)%string) (inboxes_table d).

(** Every stored identifier was handed out by the generator already. *)
Definition uuids_fresh (d : Database) : bool :=
  forallb (fun n => n_uuid n <? next_uuid d) (notes_table d).

(** [uuid] is a key of [notes]. *)
Fixpoint distinct (l : list UUID) : bool :=
  match l with
  | [] => true
  | u :: l' => negb (existsb (Nat.eqb u) l') && distinct l'
  end.

Definition uuids_unique (d : Database) : bool :=
  distinct (map n_uuid (notes_table d)).


(** The notes of a call's result, none when the call raised. *)
Definition page_notes (r : (exn + NotesPage) * World) : list Note :=
  match fst r with
  | inr p => notes p
  | inl _ => []
  end.




(** [s] is a prefix of [t]; [s] occurs in [t]. *)
Fixpoint prefixb (s t : list ascii) : bool :=
  match s, t with
  | [], _ => true
  | _ :: _, [] => false
  | c :: s', c' :: t' => Ascii.eqb c c' && prefixb s' t'
  end.

Fixpoint containsb (s t : list ascii) : bool :=
  prefixb s t
  || match t with
     | [] => false
     | _ :: t' => containsb s t'
     end.




(** [self] after [Note.store] has set its uuid. *)
Definition stored (self : Note) (u : UUID) : Note :=
  mkNote (body self) (byline self) (inbox self) (archived self) (Some u)
    (timestamp self) (audio_path self).

(** The row an INSERT of [self] writes, and the database after it. *)
Definition new_row (d : Database) (self : Note) (auth_id : string)
    (audio : option string) : NoteRow :=
  mkNoteRow (next_uuid d) (body self) (byline self) auth_id false (clock d)
    audio.

Definition after_insert (d : Database) (row : NoteRow) : Database :=
  set_next_uuid (set_notes_table d (notes_table d ++ [row])) (S (next_uuid d)).


(** Two states of [inboxes] that differ at most in the [enabled] flag of
    the rows of [s]. *)
Definition same_but_enabled (s : string) (old new : list InboxRow) : Prop :=
  Forall2 (fun a b =>
             i_slug b = i_slug a /\ i_auth_id b = i_auth_id a /\
             i_email b = i_email a /\ i_email_enabled b = i_email_enabled a /\
             (i_slug a <> s -> b = a))
    old new.

(** An operation that leaves the process state as it found it, whatever
    it returns or raises. *)
Definition read_only {A} (m : M A) : Prop :=
  forall w, snd (m w) = w.


(** Two states of [inboxes] that differ at most in the [email_enabled]
    flag of the rows of [s]. *)
Definition same_but_email_enabled (s : string) (old new : list InboxRow)
    : Prop :=
  Forall2 (fun a b =>
             i_slug b = i_slug a /\ i_auth_id b = i_auth_id a /\
             i_email b = i_email a /\ i_enabled b = i_enabled a /\
             (i_slug a <> s -> b = a))
    old new.

(** What the two flag UPDATEs do to one row. *)
Definition with_email_enabled (v : bool) (s : string) (b : InboxRow)
    : InboxRow :=
  if (i_slug b =? s)%string
  then mkInboxRow (i_slug b) (i_auth_id b) (i_email b) v (i_enabled b)
  else b.

Definition with_enabled (v : bool) (s : string) (b : InboxRow) : InboxRow :=
  if (i_slug b =? s)%string
  then mkInboxRow (i_slug b) (i_auth_id b) (i_email b) (i_email_enabled b) v
  else b.

(** What the UPDATE of [Note.archive] does to one row. *)
Definition with_archived (u : UUID) (n : NoteRow) : NoteRow :=
  if n_uuid n =? u
  then mkNoteRow (n_uuid n) (n_body n) (n_byline n) (n_inboxes_auth_id n) true
         (n_timestamp n) (n_audio_path n)
  else n.

(** ** Sample states *)

Definition sample_inbox : InboxRow :=
  mkInboxRow "kenneth" "auth0|1" "me@example.org" true true.

(** An empty store with one registered inbox; [notes] has no audio column. *)
Definition sample_db : Database :=
  mkDatabase [] [sample_inbox] false true true 0 1000%Z false.

Definition sample_world : World := mkWorld sample_db [].

(** The same with the audio column. *)
Definition audio_db : Database :=
  mkDatabase [] [sample_inbox] true true true 0 1000%Z false.

Definition audio_world : World := mkWorld audio_db [].


Definition sample_note (u : UUID) (b by_ : string) (arch : bool)
    (t : datetime) : NoteRow :=
  mkNoteRow u (Some b) (Some by_) "auth0|1" arch t None.

(** Three notes to list, one of another inbox and one archived. *)
Definition listing_world : World :=
  mkWorld
    (mkDatabase
       [ sample_note 0 "thanks" "ABCDEF" false 10%Z;
         sample_note 1 "merci" "bob" false 30%Z;
         mkNoteRow 2 (Some "thanks"%string) (Some "eve"%string) "auth0|2" false 25%Z None;
         sample_note 3 "danke" "carl" true 40%Z;
         sample_note 4 "gracias" "dora" false 20%Z ]
       [sample_inbox] false true true 5 1000%Z false)
    [].

(** Two archived notes of one inbox; the scan returns the more recent one
    first. *)
Definition archive_world : World :=
  mkWorld
    (mkDatabase
       [ sample_note 1 "second" "bob" true 200%Z;
         sample_note 0 "first" "ann" true 100%Z ]
       [sample_inbox] false true true 2 1000%Z false)
    [].

(** * Properties *)

(** ** Running statements *)

Lemma conn_execute_failed :
  forall {A} (q : statement A) w,
    failed_transaction (conn w) = true ->
    conn_execute q w = (inl InFailedSqlTransaction, w).
Proof.
  intros A q w H. unfold conn_execute. now rewrite H.
Qed.

Lemma conn_execute_query :
  forall {A} (f : Database -> A) d out,
    failed_transaction d = false ->
    conn_execute (query f) (mkWorld d out) = (inr (f d), mkWorld d out).
Proof.
  intros A f d out H. unfold conn_execute, query. simpl. now rewrite H.
Qed.

Lemma nth_error_0_filter :
  forall {A} (p : A -> bool) (l : list A) x,
    nth_error (filter p l) 0 = Some x ->
    exists rest, filter p l = x :: rest.
Proof.
  intros A p l x H. destruct (filter p l) as [|y rest]; simpl in H.
  - discriminate.
  - injection H as ->. now exists rest.
Qed.

(** What [Inbox.auth_id] does on a healthy connection: the first row of
    the slug decides. *)
Lemma Inbox_auth_id_run :
  forall self d out r0 rest,
    failed_transaction d = false ->
    filter (fun b => (i_slug b =? slug self)%string) (inboxes_table d)
      = r0 :: rest ->
    Inbox_auth_id self (mkWorld d out) = (inr (i_auth_id r0), mkWorld d out).
Proof.
  intros self d out r0 rest Hf Hr.
  unfold Inbox_auth_id, bind, select_inboxes_by_slug.
  rewrite conn_execute_query by assumption.
  rewrite Hr. reflexivity.
Qed.

Lemma Inbox_auth_id_unregistered :
  forall self d out,
    failed_transaction d = false ->
    filter (fun b => (i_slug b =? slug self)%string) (inboxes_table d) = [] ->
    Inbox_auth_id self (mkWorld d out) = (inl IndexError, mkWorld d out).
Proof.
  intros self d out Hf Hr.
  unfold Inbox_auth_id, bind, select_inboxes_by_slug.
  rewrite conn_execute_query by assumption.
  rewrite Hr. reflexivity.
Qed.

(** A successful [Inbox.auth_id] tells that the connection is healthy and
    the slug registered. *)
Lemma Inbox_auth_id_inv :
  forall self w a,
    fst (Inbox_auth_id self w) = inr a ->
    failed_transaction (conn w) = false /\
    exists r0 rest,
      filter (fun b => (i_slug b =? slug self)%string) (inboxes_table (conn w))
        = r0 :: rest /\
      i_auth_id r0 = a.
Proof.
  intros self [d out] a H. simpl.
  destruct (failed_transaction d) eqn:Hf.
  - unfold Inbox_auth_id, bind in H.
    rewrite conn_execute_failed in H by assumption. discriminate.
  - split; [reflexivity|].
    destruct (filter (fun b => (i_slug b =? slug self)%string) (inboxes_table d))
      as [|r0 rest] eqn:Hr.
    + rewrite Inbox_auth_id_unregistered in H by assumption. discriminate.
    + rewrite (Inbox_auth_id_run self d out r0 rest Hf Hr) in H. simpl in H.
      injection H as <-. now exists r0, rest.
Qed.

Lemma registered_filter :
  forall d s,
    registered d s = true ->
    exists r0 rest,
      filter (fun b => (i_slug b =? s)%string) (inboxes_table d) = r0 :: rest.
Proof.
  intros d s H. unfold registered in H.
  apply existsb_exists in H. destruct H as [b [Hin Hb]].
  destruct (filter (fun b => (i_slug b =? s)%string) (inboxes_table d))
    as [|r0 rest] eqn:Hr.
  - assert (In b []) as [].
    rewrite <- Hr. apply filter_In. now split.
  - now exists r0, rest.
Qed.

(** ** [Note.fetch] on an unknown identifier *)

Lemma Note_does_exist_false :
  forall w u,
    fst (Note_does_exist u w) = inr false ->
    failed_transaction (conn w) = false /\
    filter (fun n => n_uuid n =? u) (notes_table (conn w)) = [].
Proof.
  intros [d out] u H. simpl.
  destruct (failed_transaction d) eqn:Hf.
  - unfold Note_does_exist, bind in H.
    rewrite conn_execute_failed in H by assumption. discriminate.
  - split; [reflexivity|].
    unfold Note_does_exist, bind, select_notes_by_uuid in H.
    rewrite conn_execute_query in H by assumption. simpl in H.
    destruct (filter (fun n => n_uuid n =? u) (notes_table d)); [reflexivity|].
    simpl in H. discriminate.
Qed.

(** C5, amended: for every identifier with no stored note (the existence
    probe [Note.does_exist] answers false), [Note.fetch] raises
    [IndexError], the exception Python raises for any out-of-range
    subscript, and leaves the state as it was; the module has no NotFound
    condition of its own. *)
Theorem fetch_unknown_raises_IndexError :
  forall w u,
    fst (Note_does_exist u w) = inr false ->
    Note_fetch u w = (inl IndexError, w) /\
    generic_indexing_fault IndexError = true.
Proof.
  intros w u H. apply Note_does_exist_false in H. destruct H as [Hf Hr].
  destruct w as [d out]. simpl in *. split; [|reflexivity].
  unfold Note_fetch, bind, select_notes_by_uuid.
  rewrite conn_execute_query by assumption.
  rewrite Hr. reflexivity.
Qed.

Lemma fetch_unknown_raises_IndexError_witness :
  fst (Note_does_exist 7 sample_world) = inr false /\
  Note_fetch 7 sample_world = (inl IndexError, sample_world).
Proof.
  split; [reflexivity|].
  apply (fetch_unknown_raises_IndexError sample_world 7). reflexivity.
Defined.

(** C5 as stated fails: on an unknown identifier the failure of
    [Note.fetch] is the generic indexing fault, not a condition distinct
    from it. *)
Lemma fetch_unknown_not_a_distinct_condition :
  ~ (forall w u,
       fst (Note_does_exist u w) = inr false ->
       exists e w',
         Note_fetch u w = (inl e, w') /\ generic_indexing_fault e = false).
Proof.
  intros H. destruct (H sample_world 7 eq_refl) as [e [w' [Hrun Hkind]]].
  vm_compute in Hrun. injection Hrun as <- _. discriminate Hkind.
Qed.

(** ** The flag reads *)




(** ** Registration *)

Lemma filter_cons_existsb :
  forall {A} (p q : A -> bool) (l : list A) x rest,
    (forall a, p a = true -> q a = true) ->
    filter p l = x :: rest ->
    existsb q l = true.
Proof.
  intros A p q l x rest Hpq Hf.
  apply existsb_exists. exists x.
  assert (Hin : In x (filter p l)) by (rewrite Hf; now left).
  apply filter_In in Hin. destruct Hin as [Hin Hp]. split; auto.
Qed.



(** ** The account flag *)

Lemma set_enabled_frame :
  forall s v l,
    same_but_enabled s l
      (map (fun b =>
              if (i_slug b =? s)%string
              then mkInboxRow (i_slug b) (i_auth_id b) (i_email b)
                     (i_email_enabled b) v
              else b) l).
Proof.
  intros s v l. unfold same_but_enabled.
  induction l as [|b l IH]; simpl; constructor; auto.
  destruct (String.eqb_spec (i_slug b) s) as [E|E]; simpl.
  - repeat split; auto; intros Hn; contradiction.
  - repeat split; auto.
Qed.

Lemma same_but_enabled_refl :
  forall s l, same_but_enabled s l l.
Proof.
  intros s l. unfold same_but_enabled.
  induction l; constructor; auto.
Qed.

Lemma set_enabled_effect :
  forall s v l,
    Forall (fun b => i_slug b = s -> i_enabled b = v)
      (map (fun b =>
              if (i_slug b =? s)%string
              then mkInboxRow (i_slug b) (i_auth_id b) (i_email b)
                     (i_email_enabled b) v
              else b) l).
Proof.
  intros s v l. induction l as [|b l IH]; simpl; constructor; auto.
  destruct (String.eqb_spec (i_slug b) s) as [E|E]; simpl; auto.
  intros; contradiction.
Qed.

Lemma set_enabled_run :
  forall v s w,
    let w' := snd (conn_execute (update_inboxes_set_enabled v s) w) in
    same_but_enabled s (inboxes_table (conn w)) (inboxes_table (conn w')) /\
    notes_table (conn w') = notes_table (conn w) /\
    output w' = output w /\
    (failed_transaction (conn w) = false ->
     Forall (fun b => i_slug b = s -> i_enabled b = v)
       (inboxes_table (conn w'))).
Proof.
  intros v s [d out]. unfold conn_execute, update_inboxes_set_enabled. simpl.
  destruct (failed_transaction d); simpl.
  - repeat split; auto using same_but_enabled_refl. discriminate.
  - repeat split; auto using set_enabled_frame, set_enabled_effect.
Qed.

(** C9: [Inbox.enable_account] and [Inbox.disable_account] leave every
    row of [inboxes] with its slug, auth_id, email and email_enabled flag,
    leave the rows of other slugs and the notes as they were, and (on a
    healthy connection) set the enabled flag of the rows of the slug. *)
Theorem account_toggle_frame :
  forall w slug,
    let on := snd (Inbox_enable_account slug w) in
    let off := snd (Inbox_disable_account slug w) in
    same_but_enabled slug (inboxes_table (conn w)) (inboxes_table (conn on)) /\
    same_but_enabled slug (inboxes_table (conn w)) (inboxes_table (conn off)) /\
    map i_email_enabled (inboxes_table (conn on))
      = map i_email_enabled (inboxes_table (conn w)) /\
    map i_email_enabled (inboxes_table (conn off))
      = map i_email_enabled (inboxes_table (conn w)) /\
    notes_table (conn on) = notes_table (conn w) /\
    notes_table (conn off) = notes_table (conn w) /\
    (failed_transaction (conn w) = false ->
     Forall (fun b => i_slug b = slug -> i_enabled b = true)
       (inboxes_table (conn on)) /\
     Forall (fun b => i_slug b = slug -> i_enabled b = false)
       (inboxes_table (conn off))).
Proof.
  intros w s on off.
  destruct (set_enabled_run true s w) as [F1 [N1 [_ E1]]].
  destruct (set_enabled_run false s w) as [F2 [N2 [_ E2]]].
  fold on in F1, N1, E1. fold off in F2, N2, E2.
  assert (Hmap : forall l l', same_but_enabled s l l' ->
                              map i_email_enabled l' = map i_email_enabled l).
  { intros l l' HF. induction HF as [|a b l l' Hab _ IH]; simpl; [reflexivity|].
    destruct Hab as [_ [_ [_ [He _]]]]. now rewrite He, IH. }
  repeat split; auto.
Qed.

Lemma account_toggle_frame_witness :
  Forall (fun b => i_slug b = "kenneth"%string -> i_enabled b = true)
    (inboxes_table (conn (snd (Inbox_enable_account "kenneth" sample_world)))) /\
  Forall (fun b => i_slug b = "kenneth"%string -> i_enabled b = false)
    (inboxes_table (conn (snd (Inbox_disable_account "kenneth" sample_world)))).
Proof.
  apply (account_toggle_frame sample_world "kenneth"). reflexivity.
Defined.

(** ** [Note.store] *)

Lemma fresh_no_row :
  forall d,
    uuids_fresh d = true ->
    existsb (fun n => n_uuid n =? next_uuid d) (notes_table d) = false /\
    filter (fun n => n_uuid n =? next_uuid d) (notes_table d) = [].
Proof.
  intros d H. unfold uuids_fresh in H. rewrite forallb_forall in H.
  assert (Hne : forall n, In n (notes_table d) ->
                          (n_uuid n =? next_uuid d) = false).
  { intros n Hin. apply H in Hin. apply Nat.ltb_lt in Hin.
    apply Nat.eqb_neq. lia. }
  clear H. induction (notes_table d) as [|n l IH]; simpl; [split; reflexivity|].
  rewrite (Hne n (or_introl eq_refl)). simpl.
  apply IH. intros m Hm. apply Hne. now right.
Qed.

Lemma insert_note_row_run :
  forall d out b by_ auth audio,
    failed_transaction d = false ->
    uuids_fresh d = true ->
    conn_execute (insert_note_row b by_ auth audio) (mkWorld d out)
    = (inr (next_uuid d),
       mkWorld
         (after_insert d (mkNoteRow (next_uuid d) b by_ auth false (clock d) audio))
         out).
Proof.
  intros d out b by_ auth audio Hf Hu.
  unfold conn_execute, insert_note_row. simpl.
  rewrite Hf. rewrite (proj1 (fresh_no_row d Hu)). reflexivity.
Qed.

(** The branch of [Note.store] that binds neither [q] nor [params]. *)
Lemma Note_store_unbound :
  forall d out self,
    failed_transaction d = false ->
    audio_path_column d = true ->
    truthy (audio_path self) = false ->
    Note_store self (mkWorld d out)
    = (inl UnboundLocalError,
       mkWorld d (out ++ [Logged LvlError (ErrorStoringNote UnboundLocalError)])).
Proof.
  intros d out self Hf Hc Ht.
  unfold Note_store, try_except, bind, check_column.
  rewrite conn_execute_query by assumption.
  rewrite Hc, Ht. reflexivity.
Qed.

Lemma Note_store_with_audio :
  forall d out self i r0 rest,
    failed_transaction d = false ->
    uuids_fresh d = true ->
    inbox self = Some i ->
    filter (fun b => (i_slug b =? slug i)%string) (inboxes_table d) = r0 :: rest ->
    audio_path_column d = true ->
    truthy (audio_path self) = true ->
    Note_store self (mkWorld d out)
    = (inr (stored self (next_uuid d)),
       mkWorld (after_insert d (new_row d self (i_auth_id r0) (audio_path self)))
         (out ++ [Logged LvlInfo (NoteStoredWithUUID (next_uuid d))])).
Proof.
  intros d out self i r0 rest Hf Hu Hi Hr Hc Ht.
  unfold Note_store, try_except, bind, check_column.
  rewrite conn_execute_query by assumption.
  rewrite Hc, Ht. cbv beta iota.
  unfold stored. rewrite Hi. unfold inbox_auth_id.
  rewrite (Inbox_auth_id_run i d out r0 rest Hf Hr).
  unfold ret at 1. cbv beta iota. unfold insert_note_with_audio.
  rewrite insert_note_row_run by assumption.
  reflexivity.
Qed.

Lemma Note_store_without_column :
  forall d out self i r0 rest,
    failed_transaction d = false ->
    uuids_fresh d = true ->
    inbox self = Some i ->
    filter (fun b => (i_slug b =? slug i)%string) (inboxes_table d) = r0 :: rest ->
    audio_path_column d = false ->
    Note_store self (mkWorld d out)
    = (inr (stored self (next_uuid d)),
       mkWorld (after_insert d (new_row d self (i_auth_id r0) None))
         (out ++ [Logged LvlError
                    (Text "Audio path column not available - storing note without audio");
                  Logged LvlInfo (NoteStoredWithUUID (next_uuid d))])).
Proof.
  intros d out self i r0 rest Hf Hu Hi Hr Hc.
  unfold Note_store, try_except, bind, check_column.
  rewrite conn_execute_query by assumption.
  rewrite Hc. cbv beta iota.
  unfold stored. rewrite Hi. unfold inbox_auth_id, emit at 1.
  simpl conn. simpl output.
  rewrite (Inbox_auth_id_run i d _ r0 rest Hf Hr).
  unfold ret at 1. cbv beta iota. unfold insert_note.
  rewrite insert_note_row_run by assumption.
  unfold emit, ret. simpl. rewrite <- app_assoc. reflexivity.
Qed.

(** C7, amended: [Note.store] probes the schema for the audio column.
    With the column and a non-empty audio path it inserts the note with
    the path; without the column it logs (at error level) that the column
    is not available and inserts the note without a path; with the column
    but no audio path it inserts nothing, logs the failure and raises
    [UnboundLocalError] to the caller. *)
Theorem store_probes_audio_column :
  forall w self,
    failed_transaction (conn w) = false ->
    (forall i r0 rest,
       uuids_fresh (conn w) = true ->
       inbox self = Some i ->
       filter (fun b => (i_slug b =? slug i)%string) (inboxes_table (conn w))
         = r0 :: rest ->
       (audio_path_column (conn w) = true ->
        truthy (audio_path self) = true ->
        Note_store self w
        = (inr (stored self (next_uuid (conn w))),
           mkWorld
             (after_insert (conn w)
                (new_row (conn w) self (i_auth_id r0) (audio_path self)))
             (output w ++ [Logged LvlInfo (NoteStoredWithUUID (next_uuid (conn w)))]))) /\
       (audio_path_column (conn w) = false ->
        Note_store self w
        = (inr (stored self (next_uuid (conn w))),
           mkWorld
             (after_insert (conn w) (new_row (conn w) self (i_auth_id r0) None))
             (output w ++
              [Logged LvlError
                 (Text "Audio path column not available - storing note without audio");
               Logged LvlInfo (NoteStoredWithUUID (next_uuid (conn w)))])))) /\
    (audio_path_column (conn w) = true ->
     truthy (audio_path self) = false ->
     Note_store self w
     = (inl UnboundLocalError,
        mkWorld (conn w)
          (output w ++ [Logged LvlError (ErrorStoringNote UnboundLocalError)]))).
Proof.
  intros [d out] self Hf. simpl in *. split.
  - intros i r0 rest Hu Hi Hr. split.
    + intros Hc Ht. now apply Note_store_with_audio with (i := i) (rest := rest).
    + intros Hc. now apply Note_store_without_column with (i := i) (rest := rest).
  - intros Hc Ht. now apply Note_store_unbound.
Qed.

Lemma store_probes_audio_column_witness :
  let voiced := Note_from_inbox "kenneth" (Some "hi"%string) (Some "ann"%string)
                  (Some false) None None (Some "a.webm"%string) in
  let plain := Note_from_inbox "kenneth" (Some "hi"%string) (Some "ann"%string)
                 (Some false) None None None in
  notes_table (conn (snd (Note_store voiced audio_world)))
    = [mkNoteRow 0 (Some "hi"%string) (Some "ann"%string) "auth0|1" false 1000
         (Some "a.webm"%string)] /\
  notes_table (conn (snd (Note_store plain sample_world)))
    = [mkNoteRow 0 (Some "hi"%string) (Some "ann"%string) "auth0|1" false 1000
         None] /\
  Note_store plain audio_world
    = (inl UnboundLocalError,
       mkWorld audio_db [Logged LvlError (ErrorStoringNote UnboundLocalError)]).
Proof.
  intros voiced plain.
  destruct (store_probes_audio_column audio_world voiced eq_refl) as [Ha _].
  destruct (Ha (Inbox_init "kenneth") sample_inbox [] eq_refl eq_refl eq_refl)
    as [Ha1 _].
  destruct (store_probes_audio_column sample_world plain eq_refl) as [Hb _].
  destruct (Hb (Inbox_init "kenneth") sample_inbox [] eq_refl eq_refl eq_refl)
    as [_ Hb2].
  destruct (store_probes_audio_column audio_world plain eq_refl) as [_ Hc].
  split; [|split].
  - rewrite (Ha1 eq_refl eq_refl). reflexivity.
  - rewrite (Hb2 eq_refl). reflexivity.
  - apply (Hc eq_refl eq_refl).
Defined.

(** C7 as stated fails: with the audio column and no audio path the note
    is not dropped silently; [Note.store] does not return. *)
Lemma store_without_audio_path_is_not_silent :
  ~ (forall w self,
       audio_path_column (conn w) = true ->
       audio_path self = None ->
       exists n w',
         Note_store self w = (inr n, w') /\
         notes_table (conn w') = notes_table (conn w)).
Proof.
  intros H.
  destruct (H audio_world
              (Note_from_inbox "kenneth" (Some "hi"%string) (Some "ann"%string)
                 (Some false) None None None) eq_refl eq_refl)
    as [n [w' [Hrun _]]].
  vm_compute in Hrun. discriminate Hrun.
Qed.

(** ** [Inbox.submit_note] then [Note.fetch] *)

Lemma filter_app_single :
  forall {A} (p : A -> bool) l x,
    filter p l = [] -> p x = true -> filter p (l ++ [x]) = [x].
Proof.
  intros A p l x Hl Hx. rewrite filter_app, Hl. simpl. now rewrite Hx.
Qed.

(** C1, amended: on a healthy connection to a store whose [notes] table
    has no audio column, for a registered inbox and every body and byline,
    [Inbox.submit_note(body, byline)] returns a note with a uuid, and
    [Note.fetch] on that uuid returns a note with the submitted body and
    byline.  The archived attribute of the fetched note is unset ([None]):
    [Note.fetch] loads the body and the byline only; the archived flag of
    the stored row is false. *)
Theorem submit_note_then_fetch :
  forall w self b by_,
    failed_transaction (conn w) = false ->
    audio_path_column (conn w) = false ->
    uuids_fresh (conn w) = true ->
    registered (conn w) (slug self) = true ->
    exists note w1 fetched row,
      Inbox_submit_note self (Some b) (Some by_) None w = (inr note, w1) /\
      uuid note = Some (next_uuid (conn w)) /\
      Note_fetch (next_uuid (conn w)) w1 = (inr fetched, w1) /\
      body fetched = Some b /\
      byline fetched = Some by_ /\
      uuid fetched = uuid note /\
      archived fetched = None /\
      filter (fun n => n_uuid n =? next_uuid (conn w)) (notes_table (conn w1))
        = [row] /\
      n_body row = Some b /\
      n_byline row = Some by_ /\
      n_archived row = false.
Proof.
  intros [d out] self b by_ Hf Hc Hu Hreg. simpl in *.
  destruct (registered_filter d (slug self) Hreg) as [r0 [rest Hr]].
  set (note := Note_from_inbox (slug self) (Some b) (Some by_) (Some false)
                 None None None).
  set (row := new_row d note (i_auth_id r0) None).
  assert (Hsel : filter (fun n => n_uuid n =? next_uuid d)
                   (notes_table d ++ [row]) = [row]).
  { apply filter_app_single.
    - apply (fresh_no_row d Hu).
    - simpl. apply Nat.eqb_refl. }
  eexists. eexists. eexists. exists row. split.
  - unfold Inbox_submit_note. fold note.
    apply Note_store_without_column with (i := Inbox_init (slug self))
      (r0 := r0) (rest := rest); auto.
  - split; [reflexivity|]. split.
    + unfold Note_fetch, bind, select_notes_by_uuid.
      rewrite conn_execute_query by exact Hf.
      change (notes_table (after_insert d (new_row d note (i_auth_id r0) None)))
        with (notes_table d ++ [row]).
      rewrite Hsel. reflexivity.
    + simpl. repeat split; auto.
Qed.

Lemma submit_note_then_fetch_witness :
  exists note w1 fetched,
    Inbox_submit_note (Inbox_init "kenneth") (Some "thanks"%string)
      (Some "ann"%string) None sample_world = (inr note, w1) /\
    uuid note = Some 0 /\
    Note_fetch 0 w1 = (inr fetched, w1) /\
    body fetched = Some "thanks"%string /\
    byline fetched = Some "ann"%string /\
    archived fetched = None.
Proof.
  destruct (submit_note_then_fetch sample_world (Inbox_init "kenneth")
              "thanks" "ann" eq_refl eq_refl eq_refl eq_refl)
    as [note [w1 [fetched [row [H1 [H2 [H3 [H4 [H5 [_ [H7 _]]]]]]]]]]].
  exists note, w1, fetched. repeat split; assumption.
Defined.

(** C1 as stated fails: the note that [Note.fetch] returns after
    [Inbox.submit_note] does not have its archived flag set to false. *)
Lemma fetch_after_submit_archived_not_false :
  ~ (forall w self b by_,
       failed_transaction (conn w) = false ->
       registered (conn w) (slug self) = true ->
       uuids_fresh (conn w) = true ->
       exists note w1 u fetched w2,
         Inbox_submit_note self (Some b) (Some by_) None w = (inr note, w1) /\
         uuid note = Some u /\
         Note_fetch u w1 = (inr fetched, w2) /\
         body fetched = Some b /\
         byline fetched = Some by_ /\
         archived fetched = Some false).
Proof.
  intros H.
  destruct (H sample_world (Inbox_init "kenneth") "thanks"%string
              "ann"%string eq_refl eq_refl eq_refl)
    as [note [w1 [u [fetched [w2 [Hsub [Hu [Hfetch [_ [_ Harch]]]]]]]]]].
  vm_compute in Hsub. injection Hsub as <- <-.
  simpl in Hu. injection Hu as <-.
  vm_compute in Hfetch. injection Hfetch as <- _.
  discriminate Harch.
Qed.

(** ** The listings, step by step *)

(** The pattern of a search always ends with an unescaped or an escaped
    [%], never with a lone escape character. *)
Lemma like_tokens_percent_end :
  forall n l,
    List.length l <= n ->
    exists pat, like_tokens (l ++ ["%"%char]) = Some pat.
Proof.
  induction n as [|n IH]; intros l Hl.
  - destruct l; [|simpl in Hl; lia]. now exists [LikeAny].
  - destruct l as [|c rest]; [now exists [LikeAny]|].
    simpl in Hl. simpl.
    destruct (Ascii.eqb c "\").
    + destruct rest as [|c' rest']; simpl.
      * now exists [LikeChar "%"%char].
      * destruct (IH rest') as [pat Hp]; [simpl in Hl; lia|].
        rewrite Hp. simpl. eauto.
    + destruct (IH rest) as [pat Hp]; [lia|].
      rewrite Hp.
      destruct (Ascii.eqb c "%"); [|destruct (Ascii.eqb c "_")]; simpl; eauto.
Qed.

Lemma like_tokens_search_pattern :
  forall param, exists pat, like_tokens (search_pattern param) = Some pat.
Proof.
  intros param. unfold search_pattern.
  destruct (like_tokens_percent_end (List.length (list_ascii_of_string param))
              (list_ascii_of_string param) (le_n _)) as [pat Hp].
  exists (LikeAny :: pat).
  change (like_tokens ("%"%char :: list_ascii_of_string param ++ ["%"%char]))
    with (option_map (cons LikeAny)
            (like_tokens (list_ascii_of_string param ++ ["%"%char]))).
  now rewrite Hp.
Qed.

(** [Inbox.notes] on a healthy connection, for a registered inbox: the
    arguments go to LIMIT and OFFSET as they are, and the division comes
    last. *)
Lemma Inbox_notes_run :
  forall self d out r0 rest page page_size,
    failed_transaction d = false ->
    filter (fun b => (i_slug b =? slug self)%string) (inboxes_table d)
      = r0 :: rest ->
    let w := mkWorld d out in
    let rows := filter (of_inbox (i_auth_id r0) false) (notes_table d) in
    Inbox_notes self page page_size w
    = match limit_offset page_size ((page - 1) * page_size)
              (order_by_timestamp_desc rows) with
      | inl e => (inl e, w)
      | inr result =>
          if (page_size =? 0)%Z then (inl ZeroDivisionError, w)
          else (inr (mkNotesPage (map (note_of_row self) result)
                       (Z.of_nat (List.length rows)) page
                       ((Z.of_nat (List.length rows) + page_size - 1) / page_size)),
                w)
      end.
Proof.
  intros self d out r0 rest pg ps Hf Hr w rows. subst w.
  unfold Inbox_notes, bind.
  rewrite (Inbox_auth_id_run self d out r0 rest Hf Hr).
  unfold count_query. rewrite conn_execute_query by assumption.
  rewrite (Inbox_auth_id_run self d out r0 rest Hf Hr).
  unfold conn_execute, notes_query. simpl conn. rewrite Hf. fold rows.
  destruct (limit_offset ps ((pg - 1) * ps) (order_by_timestamp_desc rows));
    [reflexivity|].
  unfold floordiv. simpl output.
  destruct (ps =? 0)%Z; reflexivity.
Qed.

(** [Inbox.search_notes], likewise. *)
Lemma Inbox_search_notes_run :
  forall self d out r0 rest s pat page page_size,
    failed_transaction d = false ->
    filter (fun b => (i_slug b =? slug self)%string) (inboxes_table d)
      = r0 :: rest ->
    like_tokens (search_pattern (lower s)) = Some pat ->
    let w := mkWorld d out in
    let selected := filter (search_where pat (i_auth_id r0)) (notes_table d) in
    let total := match limit_offset page_size ((page - 1) * page_size)
                         (order_by_timestamp_desc selected) with
                 | inr (_ :: _) => Z.of_nat (List.length selected)
                 | _ => 0%Z
                 end in
    Inbox_search_notes self s page page_size w
    = match limit_offset page_size ((page - 1) * page_size)
              (order_by_timestamp_desc selected) with
      | inl e => (inl e, w)
      | inr result =>
          if (page_size =? 0)%Z then (inl ZeroDivisionError, w)
          else (inr (mkNotesPage (map (note_of_row self) result) total page
                       ((total + page_size - 1) / page_size)),
                w)
      end.
Proof.
  intros self d out r0 rest s pat pg ps Hf Hr Hp w selected total.
  subst w total.
  unfold Inbox_search_notes, bind.
  rewrite (Inbox_auth_id_run self d out r0 rest Hf Hr).
  unfold conn_execute, search_query. simpl conn. rewrite Hf, Hp. fold selected.
  destruct (limit_offset ps ((pg - 1) * ps) (order_by_timestamp_desc selected))
    as [e|result]; [reflexivity|].
  unfold floordiv. simpl output. rewrite map_map. simpl fst.
  destruct result as [|x result]; simpl; destruct (ps =? 0)%Z; reflexivity.
Qed.

(** ** Page size zero *)

Lemma limit_offset_small :
  forall {A} (limit offset : Z) (rows : list A) result,
    limit_offset limit offset rows = inr result ->
    (0 <= limit)%Z.
Proof.
  intros A l o rows result H. unfold limit_offset in H.
  destruct (o <? 0)%Z; [discriminate|].
  destruct (Z.ltb_spec l 0); [discriminate|assumption].
Qed.

Lemma Inbox_notes_returns :
  forall self page page_size w p w',
    Inbox_notes self page page_size w = (inr p, w') ->
    (1 <= page_size)%Z.
Proof.
  intros self pg ps [d out] p w' H.
  destruct (failed_transaction d) eqn:Hf.
  { unfold Inbox_notes, bind, Inbox_auth_id, bind in H.
    rewrite conn_execute_failed in H by assumption. discriminate. }
  destruct (filter (fun b => (i_slug b =? slug self)%string) (inboxes_table d))
    as [|r0 rest] eqn:Hr.
  { unfold Inbox_notes, bind in H.
    rewrite Inbox_auth_id_unregistered in H by assumption. discriminate. }
  rewrite (Inbox_notes_run self d out r0 rest pg ps Hf Hr) in H.
  destruct (limit_offset ps ((pg - 1) * ps) _) as [e|result] eqn:Hl;
    [discriminate|].
  apply limit_offset_small in Hl.
  destruct (Z.eqb_spec ps 0); [discriminate|lia].
Qed.

Lemma Inbox_search_notes_returns :
  forall self s page page_size w p w',
    Inbox_search_notes self s page page_size w = (inr p, w') ->
    (1 <= page_size)%Z.
Proof.
  intros self s pg ps [d out] p w' H.
  destruct (failed_transaction d) eqn:Hf.
  { unfold Inbox_search_notes, bind, Inbox_auth_id, bind in H.
    rewrite conn_execute_failed in H by assumption. discriminate. }
  destruct (filter (fun b => (i_slug b =? slug self)%string) (inboxes_table d))
    as [|r0 rest] eqn:Hr.
  { unfold Inbox_search_notes, bind in H.
    rewrite Inbox_auth_id_unregistered in H by assumption. discriminate. }
  destruct (like_tokens_search_pattern (lower s)) as [pat Hp].
  rewrite (Inbox_search_notes_run self d out r0 rest s pat pg ps Hf Hr Hp) in H.
  destruct (limit_offset ps ((pg - 1) * ps) _) as [e|result] eqn:Hl;
    [discriminate|].
  apply limit_offset_small in Hl.
  destruct (Z.eqb_spec ps 0); [discriminate|lia].
Qed.

Lemma limit_offset_negative :
  forall {A} (page page_size : Z) (rows : list A),
    (page <= 0)%Z -> (1 <= page_size)%Z ->
    limit_offset page_size ((page - 1) * page_size) rows
    = inl InvalidRowCountInResultOffsetClause.
Proof.
  intros A pg ps rows Hpg Hps. unfold limit_offset.
  destruct (Z.ltb_spec ((pg - 1) * ps) 0); [reflexivity|nia].
Qed.

(** C10: [Inbox.notes] and [Inbox.search_notes] return a result only for
    a page size of at least 1.  Neither checks its arguments: for a
    registered inbox on a healthy connection, with page size 0 both run
    their queries and then fail with [ZeroDivisionError] in the
    computation of total_pages, whatever the page; and a page below 1
    reaches the engine as a negative OFFSET, which the engine rejects. *)
Theorem listings_need_positive_page_size :
  forall w self s,
    (forall page page_size p w',
       Inbox_notes self page page_size w = (inr p, w') \/
       Inbox_search_notes self s page page_size w = (inr p, w') ->
       (1 <= page_size)%Z) /\
    (forall auth_id,
       fst (Inbox_auth_id self w) = inr auth_id ->
       (forall page,
          Inbox_notes self page 0 w = (inl ZeroDivisionError, w) /\
          Inbox_search_notes self s page 0 w = (inl ZeroDivisionError, w)) /\
       (forall page page_size,
          (page <= 0)%Z ->
          (1 <= page_size)%Z ->
          Inbox_notes self page page_size w
            = (inl InvalidRowCountInResultOffsetClause, w) /\
          Inbox_search_notes self s page page_size w
            = (inl InvalidRowCountInResultOffsetClause, w))).
Proof.
  intros w self s. split.
  - intros pg ps p w' [H|H].
    + now apply Inbox_notes_returns in H.
    + now apply Inbox_search_notes_returns in H.
  - intros a Ha. apply Inbox_auth_id_inv in Ha.
    destruct Ha as [Hf [r0 [rest [Hr _]]]]. destruct w as [d out]. simpl in *.
    destruct (like_tokens_search_pattern (lower s)) as [pat Hp].
    split.
    + intros pg.
      rewrite (Inbox_notes_run self d out r0 rest pg 0 Hf Hr).
      rewrite (Inbox_search_notes_run self d out r0 rest s pat pg 0 Hf Hr Hp).
      rewrite Z.mul_0_r. split; reflexivity.
    + intros pg ps Hpg Hps.
      rewrite (Inbox_notes_run self d out r0 rest pg ps Hf Hr).
      rewrite (Inbox_search_notes_run self d out r0 rest s pat pg ps Hf Hr Hp).
      rewrite !limit_offset_negative by assumption. split; reflexivity.
Qed.

Lemma listings_need_positive_page_size_witness :
  (Inbox_notes (Inbox_init "kenneth") 1 0 listing_world
     = (inl ZeroDivisionError, listing_world) /\
   Inbox_search_notes (Inbox_init "kenneth") "thanks" 1 0 listing_world
     = (inl ZeroDivisionError, listing_world)) /\
  (Inbox_notes (Inbox_init "kenneth") 0 2 listing_world
     = (inl InvalidRowCountInResultOffsetClause, listing_world) /\
   Inbox_search_notes (Inbox_init "kenneth") "thanks" 0 2 listing_world
     = (inl InvalidRowCountInResultOffsetClause, listing_world)).
Proof.
  destruct (listings_need_positive_page_size listing_world
              (Inbox_init "kenneth") "thanks") as [_ H].
  destruct (H "auth0|1"%string eq_refl) as [H0 Hneg].
  split.
  - apply (H0 1%Z).
  - apply (Hneg 0%Z 2%Z); lia.
Defined.

(** ** [Inbox.archived_notes] *)

Lemma Inbox_archived_notes_run :
  forall self d out r0 rest,
    failed_transaction d = false ->
    filter (fun b => (i_slug b =? slug self)%string) (inboxes_table d)
      = r0 :: rest ->
    Inbox_archived_notes self (mkWorld d out)
    = (inr (rev (map (fun n => Note_from_inbox (slug self) (n_body n) (n_byline n)
                                 (Some (n_archived n)) (Some (n_uuid n)) None None)
                   (filter (of_inbox (i_auth_id r0) true) (notes_table d)))),
       mkWorld d out).
Proof.
  intros self d out r0 rest Hf Hr.
  unfold Inbox_archived_notes, bind.
  rewrite (Inbox_auth_id_run self d out r0 rest Hf Hr).
  unfold archived_query. rewrite conn_execute_query by assumption.
  reflexivity.
Qed.

(** The part of C8 that holds: the archived notes of the inbox, all of
    them and nothing else. *)
Lemma archived_notes_members :
  forall self d out r0 rest,
    failed_transaction d = false ->
    filter (fun b => (i_slug b =? slug self)%string) (inboxes_table d)
      = r0 :: rest ->
    exists ns,
      Inbox_archived_notes self (mkWorld d out) = (inr ns, mkWorld d out) /\
      Forall (fun n => archived n = Some true) ns /\
      Permutation (map uuid ns)
        (map (fun n => Some (n_uuid n))
           (filter (fun n => (n_inboxes_auth_id n =? i_auth_id r0)%string
                             && n_archived n)
              (notes_table d))).
Proof.
  intros self d out r0 rest Hf Hr.
  eexists. split;
    [apply Inbox_archived_notes_run with (r0 := r0) (rest := rest);
     assumption|].
  assert (Hext : forall n, of_inbox (i_auth_id r0) true n
                           = (n_inboxes_auth_id n =? i_auth_id r0)%string
                             && n_archived n).
  { intros n. unfold of_inbox. now destruct (n_archived n). }
  rewrite (filter_ext _ _ Hext). split.
  - apply Forall_rev. apply Forall_map. apply Forall_forall.
    intros n Hn. apply filter_In in Hn. destruct Hn as [_ Hn].
    apply andb_true_iff in Hn. simpl. now rewrite (proj2 Hn).
  - rewrite map_rev, map_map. simpl. symmetry. apply Permutation_rev.
Qed.

(** C8 fails on the order: two archived notes of one inbox that the scan
    returns most recent first come back oldest first. *)
Theorem archived_notes_oldest_first :
  exists older newer,
    fst (Inbox_archived_notes (Inbox_init "kenneth") archive_world)
      = inr [older; newer] /\
    uuid older = Some 0 /\
    uuid newer = Some 1 /\
    map n_timestamp (notes_table (conn archive_world)) = [200%Z; 100%Z] /\
    map n_uuid (notes_table (conn archive_world)) = [1; 0].
Proof.
  eexists. eexists. repeat split; reflexivity.
Qed.

(** ** ORDER BY, LIMIT and OFFSET *)

Lemma insert_desc_perm :
  forall r l, Permutation (insert_desc r l) (r :: l).
Proof.
  intros r l. induction l as [|x l IH]; simpl.
  - apply Permutation_refl.
  - destruct (n_timestamp x <=? n_timestamp r)%Z.
    + apply Permutation_refl.
    + apply perm_trans with (x :: r :: l).
      * now apply perm_skip.
      * apply perm_swap.
Qed.

Lemma order_by_perm :
  forall l, Permutation (order_by_timestamp_desc l) l.
Proof.
  induction l as [|r l IH]; simpl.
  - apply perm_nil.
  - apply perm_trans with (r :: order_by_timestamp_desc l).
    + apply insert_desc_perm.
    + now apply perm_skip.
Qed.







Lemma distinct_NoDup :
  forall l, distinct l = true -> NoDup l.
Proof.
  induction l as [|u l IH]; simpl; intros H.
  - constructor.
  - apply andb_true_iff in H. destruct H as [Hu Hl].
    constructor; [|now apply IH].
    intros Hin. apply negb_true_iff in Hu.
    assert (existsb (Nat.eqb u) l = true) as Hex.
    { apply existsb_exists. exists u. split; [exact Hin|apply Nat.eqb_refl]. }
    congruence.
Qed.




(** ** [Inbox.notes]: the pages *)





(** ** LIKE and substrings *)





Lemma prefixb_spec :
  forall s t, prefixb s t = true <-> exists post, t = s ++ post.
Proof.
  induction s as [|c s IH]; intros t; simpl.
  - split; [intros _; now exists t | reflexivity].
  - destruct t as [|c' t].
    + split; [discriminate | intros [post H]; discriminate].
    + rewrite andb_true_iff, IH. split.
      * intros [Hc [post ->]]. apply Ascii.eqb_eq in Hc. subst. now exists post.
      * intros [post H]. injection H as -> ->. split.
        -- apply Ascii.eqb_refl.
        -- now exists post.
Qed.

(** [containsb s t] says that [s] occurs in [t]. *)
Lemma containsb_spec :
  forall s t, containsb s t = true <-> exists pre post, t = pre ++ s ++ post.
Proof.
  intros s t. induction t as [|c t IH]; simpl.
  - rewrite orb_false_r, prefixb_spec. split.
    + intros [post H]. now exists [], post.
    + intros [pre [post H]]. destruct pre; [now exists post|discriminate].
  - rewrite orb_true_iff, prefixb_spec, IH. split.
    + intros [[post H]|[pre [post H]]].
      * now exists [], post.
      * exists (c :: pre), post. now rewrite H.
    + intros [pre [post H]]. destruct pre as [|c' pre].
      * left. now exists post.
      * right. injection H as _ ->. now exists pre, post.
Qed.






(** ** [Inbox.search_notes] *)

Lemma In_firstn :
  forall {A} n (l : list A) x, In x (firstn n l) -> In x l.
Proof.
  intros A n. induction n as [|n IH]; intros l x H.
  - destruct H.
  - destruct l as [|y l]; [destruct H|].
    destruct H as [H|H]; [now left | right; now apply IH].
Qed.

Lemma In_skipn :
  forall {A} n (l : list A) x, In x (skipn n l) -> In x l.
Proof.
  intros A n. induction n as [|n IH]; intros l x H.
  - exact H.
  - destruct l as [|y l]; [destruct H|]. right. now apply IH.
Qed.




(** The example of the spec: the byline "ABCDEF" matches the search term
    "abc". *)
Example search_abc_finds_ABCDEF :
  map byline
    (page_notes (Inbox_search_notes (Inbox_init "kenneth") "abc" 1 10 listing_world))
  = [Some "ABCDEF"%string].
Proof. reflexivity. Qed.

(** ** The key of [notes] is an invariant *)

Lemma distinct_iff_NoDup :
  forall l, distinct l = true <-> NoDup l.
Proof.
  intros l. split; [apply distinct_NoDup|].
  induction 1 as [|u l Hnin Hnd IH]; simpl; [reflexivity|].
  rewrite IH, andb_true_r. apply negb_true_iff.
  destruct (existsb (Nat.eqb u) l) eqn:E; [|reflexivity].
  apply existsb_exists in E. destruct E as [v [Hin Hv]].
  apply Nat.eqb_eq in Hv. subst v. contradiction.
Qed.

(** An INSERT keeps the identifiers distinct and below the generator. *)
Lemma after_insert_keeps_key :
  forall d b by_ auth audio,
    uuids_fresh d = true ->
    uuids_unique d = true ->
    let d' := after_insert d (mkNoteRow (next_uuid d) b by_ auth false (clock d) audio) in
    uuids_fresh d' = true /\ uuids_unique d' = true.
Proof.
  intros d b by_ auth audio Hfresh Huniq d'. subst d'.
  unfold uuids_fresh, uuids_unique, after_insert in *. simpl.
  rewrite forallb_forall in Hfresh. split.
  - apply forallb_forall. intros n Hn. apply Nat.ltb_lt.
    apply in_app_or in Hn. destruct Hn as [Hn|[<-|[]]]; simpl; [|lia].
    apply Hfresh in Hn. apply Nat.ltb_lt in Hn. lia.
  - apply distinct_iff_NoDup. rewrite map_app. simpl.
    apply distinct_iff_NoDup in Huniq.
    apply (Permutation_NoDup (Permutation_cons_append _ _)).
    constructor; [|exact Huniq].
    intros Hin. apply in_map_iff in Hin. destruct Hin as [n [Hu Hn]].
    apply Hfresh in Hn. apply Nat.ltb_lt in Hn. lia.
Qed.

(** * Further properties of the module *)

(** ** Probes and lookups *)

Lemma Note_fetch_run :
  forall d out u,
    failed_transaction d = false ->
    Note_fetch u (mkWorld d out)
    = match filter (fun n => n_uuid n =? u) (notes_table d) with
      | [] => (inl IndexError, mkWorld d out)
      | r0 :: _ =>
          (inr (mkNote (n_body r0) (n_byline r0) None None (Some u) None None),
           mkWorld d out)
      end.
Proof.
  intros d out u Hf. unfold Note_fetch, bind, select_notes_by_uuid.
  rewrite conn_execute_query by assumption.
  destruct (filter (fun n => n_uuid n =? u) (notes_table d)); reflexivity.
Qed.

Lemma Note_does_exist_run :
  forall d out u,
    failed_transaction d = false ->
    Note_does_exist u (mkWorld d out)
    = (inr (negb (List.length (filter (fun n => n_uuid n =? u) (notes_table d))
                  =? 0)),
       mkWorld d out).
Proof.
  intros d out u Hf. unfold Note_does_exist, bind, select_notes_by_uuid.
  now rewrite conn_execute_query by assumption.
Qed.

Lemma Inbox_does_exist_run :
  forall d out s,
    failed_transaction d = false ->
    Inbox_does_exist s (mkWorld d out)
    = (inr (negb (List.length
                    (filter (fun b => (i_slug b =? s)%string) (inboxes_table d))
                  =? 0)),
       mkWorld d out).
Proof.
  intros d out s Hf. unfold Inbox_does_exist, bind, select_inboxes_by_slug.
  now rewrite conn_execute_query by assumption.
Qed.

Lemma Inbox_is_linked_run :
  forall d out a,
    failed_transaction d = false ->
    Inbox_is_linked a (mkWorld d out)
    = (inr (negb (List.length
                    (filter (fun b => (i_auth_id b =? a)%string) (inboxes_table d))
                  =? 0)),
       mkWorld d out).
Proof.
  intros d out a Hf. unfold Inbox_is_linked, bind, select_inboxes_by_auth_id.
  now rewrite conn_execute_query by assumption.
Qed.

(** An existence probe that answered [false] saw no row. *)
Lemma Inbox_does_exist_false :
  forall w s,
    fst (Inbox_does_exist s w) = inr false ->
    failed_transaction (conn w) = false /\
    filter (fun b => (i_slug b =? s)%string) (inboxes_table (conn w)) = [].
Proof.
  intros [d out] s H. simpl.
  destruct (failed_transaction d) eqn:Hf.
  - unfold Inbox_does_exist, bind in H.
    rewrite conn_execute_failed in H by assumption. discriminate.
  - split; [reflexivity|].
    rewrite Inbox_does_exist_run in H by assumption. simpl in H.
    destruct (filter (fun b => (i_slug b =? s)%string) (inboxes_table d));
      [reflexivity|discriminate].
Qed.

(** X1: on a healthy connection [Note.does_exist] and [Note.fetch] agree:
    the probe answers True exactly when the fetch returns a note, and
    False exactly when the fetch raises [IndexError]. *)
Theorem does_exist_agrees_with_fetch :
  forall w u,
    failed_transaction (conn w) = false ->
    (fst (Note_does_exist u w) = inr true <->
     exists n, Note_fetch u w = (inr n, w)) /\
    (fst (Note_does_exist u w) = inr false <->
     Note_fetch u w = (inl IndexError, w)).
Proof.
  intros [d out] u Hf. simpl in Hf.
  rewrite Note_does_exist_run, Note_fetch_run by assumption. simpl.
  destruct (filter (fun n => n_uuid n =? u) (notes_table d)) as [|r0 rest];
    simpl; split; split; intros H;
    try discriminate; try reflexivity; eauto.
  destruct H as [n H]. discriminate.
Qed.

Lemma does_exist_agrees_with_fetch_witness :
  (fst (Note_does_exist 1 listing_world) = inr true <->
   exists n, Note_fetch 1 listing_world = (inr n, listing_world)) /\
  (fst (Note_does_exist 9 listing_world) = inr false <->
   Note_fetch 9 listing_world = (inl IndexError, listing_world)).
Proof.
  split.
  - apply (does_exist_agrees_with_fetch listing_world 1). reflexivity.
  - apply (does_exist_agrees_with_fetch listing_world 9). reflexivity.
Defined.

(** ** Operations that only read *)

Lemma read_only_ret :
  forall {A} (a : A), read_only (ret a).
Proof. intros A a w. reflexivity. Qed.

Lemma read_only_raise :
  forall {A} (e : exn), read_only (@raise A e).
Proof. intros A e w. reflexivity. Qed.

Lemma read_only_bind :
  forall {A B} (m : M A) (k : A -> M B),
    read_only m -> (forall a, read_only (k a)) -> read_only (bind m k).
Proof.
  intros A B m k Hm Hk w. unfold bind.
  specialize (Hm w). destruct (m w) as [[e|a] w']; simpl in Hm; subst w'.
  - reflexivity.
  - apply Hk.
Qed.

Lemma read_only_execute :
  forall {A} (q : statement A),
    (forall d a d', q d = inr (a, d') -> d' = d) ->
    read_only (conn_execute q).
Proof.
  intros A q Hq [d out]. unfold conn_execute. simpl.
  destruct (failed_transaction d); [reflexivity|].
  destruct (q d) as [e|[a d']] eqn:E; [reflexivity|].
  apply Hq in E. now subst d'.
Qed.

Lemma read_only_query :
  forall {A} (f : Database -> A), read_only (conn_execute (query f)).
Proof.
  intros A f. apply read_only_execute. unfold query.
  intros d a d' H. now injection H.
Qed.

Lemma read_only_getitem :
  forall {A} (r : list A) i, read_only (getitem r i).
Proof.
  intros A r i. unfold getitem.
  destruct (nth_error r i); [apply read_only_ret|apply read_only_raise].
Qed.

Lemma read_only_floordiv :
  forall a b, read_only (floordiv a b).
Proof.
  intros a b. unfold floordiv.
  destruct (b =? 0)%Z; [apply read_only_raise|apply read_only_ret].
Qed.

Lemma read_only_auth_id :
  forall self, read_only (Inbox_auth_id self).
Proof.
  intros self. unfold Inbox_auth_id.
  apply read_only_bind; [apply read_only_query|]. intros r.
  apply read_only_bind; [apply read_only_getitem|]. intros r0.
  apply read_only_ret.
Qed.

(** X2: the lookups and listings only read: whatever they return or
    raise, [Note.fetch], [Note.does_exist], [Inbox.auth_id],
    [Inbox.is_linked], [Inbox.does_exist], [Inbox.get_email],
    [Inbox.notes], [Inbox.search_notes] and [Inbox.archived_notes] leave
    the tables, the connection and the log as they were. *)
Theorem lookups_and_listings_only_read :
  forall u slug auth_id self s page page_size,
    read_only (Note_fetch u) /\
    read_only (Note_does_exist u) /\
    read_only (Inbox_auth_id self) /\
    read_only (Inbox_is_linked auth_id) /\
    read_only (Inbox_does_exist slug) /\
    read_only (Inbox_get_email slug) /\
    read_only (Inbox_notes self page page_size) /\
    read_only (Inbox_search_notes self s page page_size) /\
    read_only (Inbox_archived_notes self).
Proof.
  intros u sl a self s pg ps.
  repeat split.
  - unfold Note_fetch.
    apply read_only_bind; [apply read_only_query|]. intros r.
    apply read_only_bind; [apply read_only_getitem|]. intros r0.
    apply read_only_ret.
  - unfold Note_does_exist.
    apply read_only_bind; [apply read_only_query|]. intros r.
    apply read_only_ret.
  - apply read_only_auth_id.
  - unfold Inbox_is_linked.
    apply read_only_bind; [apply read_only_query|]. intros r.
    apply read_only_ret.
  - unfold Inbox_does_exist.
    apply read_only_bind; [apply read_only_query|]. intros r.
    apply read_only_ret.
  - unfold Inbox_get_email.
    apply read_only_bind; [apply read_only_query|]. intros r.
    apply read_only_bind; [apply read_only_getitem|]. intros r0.
    apply read_only_ret.
  - unfold Inbox_notes.
    apply read_only_bind; [apply read_only_auth_id|]. intros a1.
    apply read_only_bind; [apply read_only_query|]. intros n.
    apply read_only_bind; [apply read_only_auth_id|]. intros a2.
    apply read_only_bind.
    + apply read_only_execute. unfold notes_query. intros d x d' H.
      destruct (limit_offset _ _ _); [discriminate|]. now injection H.
    + intros result.
      apply read_only_bind; [apply read_only_floordiv|]. intros tp.
      apply read_only_ret.
  - unfold Inbox_search_notes.
    apply read_only_bind; [apply read_only_auth_id|]. intros a1.
    apply read_only_bind.
    + apply read_only_execute. unfold search_query. intros d x d' H.
      destruct (like_tokens _); [|discriminate].
      destruct (limit_offset _ _ _); [discriminate|]. now injection H.
    + intros result.
      apply read_only_bind; [apply read_only_floordiv|]. intros tp.
      apply read_only_ret.
  - unfold Inbox_archived_notes.
    apply read_only_bind; [apply read_only_auth_id|]. intros a1.
    apply read_only_bind; [apply read_only_query|]. intros r.
    apply read_only_ret.
Qed.

(** ** An aborted transaction *)

Lemma bind_failed :
  forall {A B} (q : statement A) (k : A -> M B) w,
    failed_transaction (conn w) = true ->
    bind (conn_execute q) k w = (inl InFailedSqlTransaction, w).
Proof.
  intros A B q k w Hf. unfold bind.
  now rewrite conn_execute_failed by assumption.
Qed.


Lemma Note_store_failed :
  forall self w,
    failed_transaction (conn w) = true ->
    Note_store self w
    = (inl InFailedSqlTransaction,
       mkWorld (conn w)
         (output w ++ [Logged LvlError (ErrorStoringNote InFailedSqlTransaction)])).
Proof.
  intros self w Hf. unfold Note_store, try_except.
  rewrite bind_failed by assumption. reflexivity.
Qed.



(** ** An unregistered slug *)

(** X4: for a slug that [Inbox.does_exist] does not know, every lookup
    that indexes the first row raises [IndexError] and changes nothing:
    [Inbox.auth_id], [Inbox.get_email], both flag reads (whose handler is
    for the aborted transaction only), the three listings and
    [Inbox.export], which never reaches the formatter. *)
Theorem unregistered_slug_raises_IndexError :
  forall w slug,
    fst (Inbox_does_exist slug w) = inr false ->
    forall s page page_size,
      Inbox_auth_id (Inbox_init slug) w = (inl IndexError, w) /\
      Inbox_get_email slug w = (inl IndexError, w) /\
      Inbox_is_enabled slug w = (inl IndexError, w) /\
      Inbox_is_email_enabled slug w = (inl IndexError, w) /\
      Inbox_notes (Inbox_init slug) page page_size w = (inl IndexError, w) /\
      Inbox_search_notes (Inbox_init slug) s page page_size w
        = (inl IndexError, w) /\
      Inbox_archived_notes (Inbox_init slug) w = (inl IndexError, w) /\
      (forall B (tablib_export : list NoteRow -> string -> M B) file_format,
         Inbox_export tablib_export (Inbox_init slug) file_format w
         = (inl IndexError, w)).
Proof.
  intros w sl H s pg ps.
  apply Inbox_does_exist_false in H. destruct H as [Hf Hr].
  destruct w as [d out]. simpl in Hf, Hr.
  assert (Ha : Inbox_auth_id (Inbox_init sl) (mkWorld d out)
               = (inl IndexError, mkWorld d out))
    by now apply Inbox_auth_id_unregistered.
  repeat split.
  - exact Ha.
  - unfold Inbox_get_email, bind, select_inboxes_by_slug.
    rewrite conn_execute_query by assumption. now rewrite Hr.
  - unfold Inbox_is_enabled, try_except, bind, select_inboxes_by_slug.
    rewrite conn_execute_query by assumption. now rewrite Hr.
  - unfold Inbox_is_email_enabled, try_except, bind, select_inboxes_by_slug.
    rewrite conn_execute_query by assumption. now rewrite Hr.
  - unfold Inbox_notes, bind. now rewrite Ha.
  - unfold Inbox_search_notes, bind. now rewrite Ha.
  - unfold Inbox_archived_notes, bind. now rewrite Ha.
  - intros B enc fmt. unfold Inbox_export, bind. now rewrite Ha.
Qed.

Lemma unregistered_slug_raises_IndexError_witness :
  Inbox_auth_id (Inbox_init "nobody") sample_world
    = (inl IndexError, sample_world) /\
  Inbox_is_enabled "nobody" sample_world = (inl IndexError, sample_world) /\
  Inbox_notes (Inbox_init "nobody") 1 10 sample_world
    = (inl IndexError, sample_world).
Proof.
  pose proof (unregistered_slug_raises_IndexError sample_world "nobody" eq_refl
                "" 1 10) as H.
  destruct H as [H1 [_ [H3 [_ [H5 _]]]]].
  repeat split; assumption.
Defined.

Lemma Note_store_unregistered :
  forall d out self i,
    failed_transaction d = false ->
    inbox self = Some i ->
    filter (fun b => (i_slug b =? slug i)%string) (inboxes_table d) = [] ->
    let e := if audio_path_column d && negb (truthy (audio_path self))
             then UnboundLocalError else IndexError in
    exists before,
      Note_store self (mkWorld d out)
      = (inl e,
         mkWorld d (out ++ before ++ [Logged LvlError (ErrorStoringNote e)])).
Proof.
  intros d out self i Hf Hi Hr e. subst e.
  unfold Note_store, try_except, bind, check_column.
  rewrite conn_execute_query by assumption.
  destruct (audio_path_column d); simpl andb; cbv beta iota.
  - destruct (truthy (audio_path self)); simpl negb; cbv beta iota.
    + rewrite Hi. unfold inbox_auth_id.
      rewrite (Inbox_auth_id_unregistered i d out Hf Hr).
      exists []. reflexivity.
    + exists []. reflexivity.
  - rewrite Hi. unfold inbox_auth_id, emit at 1. cbv beta iota.
    simpl conn. simpl output.
    rewrite (Inbox_auth_id_unregistered i d _ Hf Hr).
    eexists [_]. unfold emit, raise. simpl. rewrite <- app_assoc. reflexivity.
Qed.

(** X5: [Inbox.submit_note] for an unregistered slug stores nothing: on a
    healthy connection it raises ([UnboundLocalError] when the audio column
    exists and no audio path was given, [IndexError] from the auth_id
    lookup otherwise), the tables stay as they were, and the error is
    logged as "Error storing note". *)
Theorem submit_note_unregistered_stores_nothing :
  forall w slug body byline audio,
    fst (Inbox_does_exist slug w) = inr false ->
    let e := if audio_path_column (conn w) && negb (truthy audio)
             then UnboundLocalError else IndexError in
    exists w',
      Inbox_submit_note (Inbox_init slug) body byline audio w = (inl e, w') /\
      conn w' = conn w /\
      exists before,
        output w' = output w ++ before ++ [Logged LvlError (ErrorStoringNote e)].
Proof.
  intros w sl b by_ au H e.
  apply Inbox_does_exist_false in H. destruct H as [Hf Hr].
  destruct w as [d out]. simpl in Hf, Hr, e.
  destruct (Note_store_unregistered d out
              (Note_from_inbox sl b by_ (Some false) None None au)
              (Inbox_init sl) Hf eq_refl Hr) as [before Hrun].
  eexists. split; [exact Hrun|]. split; [reflexivity|].
  now exists before.
Qed.

Lemma submit_note_unregistered_stores_nothing_witness :
  exists w',
    Inbox_submit_note (Inbox_init "nobody") (Some "hi"%string)
      (Some "ann"%string) None sample_world = (inl IndexError, w') /\
    conn w' = conn sample_world.
Proof.
  destruct (submit_note_unregistered_stores_nothing sample_world "nobody"
              (Some "hi"%string) (Some "ann"%string) None eq_refl)
    as [w' [H1 [H2 _]]].
  exists w'. split; assumption.
Defined.

(** ** Registration, then lookups *)

Lemma filter_nil_existsb :
  forall {A} (p : A -> bool) (l : list A),
    filter p l = [] -> existsb p l = false.
Proof.
  intros A p l. induction l as [|x l IH]; simpl; [reflexivity|].
  destruct (p x); [discriminate|]. exact IH.
Qed.

Lemma existsb_orb :
  forall {A} (p q : A -> bool) (l : list A),
    existsb (fun x => p x || q x) l = existsb p l || existsb q l.
Proof.
  intros A p q l. induction l as [|x l IH]; simpl; [reflexivity|].
  rewrite IH. destruct (p x), (q x), (existsb p l), (existsb q l); reflexivity.
Qed.

Lemma Inbox_is_linked_inv :
  forall w a v,
    fst (Inbox_is_linked a w) = inr v ->
    failed_transaction (conn w) = false /\
    existsb (fun b => (i_auth_id b =? a)%string) (inboxes_table (conn w)) = v.
Proof.
  intros [d out] a v H. simpl.
  destruct (failed_transaction d) eqn:Hf.
  - unfold Inbox_is_linked, bind in H.
    rewrite conn_execute_failed in H by assumption. discriminate.
  - split; [reflexivity|].
    rewrite Inbox_is_linked_run in H by assumption. simpl in H.
    injection H as <-.
    destruct (filter (fun b => (i_auth_id b =? a)%string) (inboxes_table d))
      as [|r0 rest] eqn:E.
    + now apply filter_nil_existsb.
    + simpl. apply filter_cons_existsb with (p := fun b => (i_auth_id b =? a)%string)
                 (x := r0) (rest := rest); auto.
Qed.

Lemma Inbox_get_email_run :
  forall d out s r0 rest,
    failed_transaction d = false ->
    filter (fun b => (i_slug b =? s)%string) (inboxes_table d) = r0 :: rest ->
    Inbox_get_email s (mkWorld d out) = (inr (i_email r0), mkWorld d out).
Proof.
  intros d out s r0 rest Hf Hr.
  unfold Inbox_get_email, bind, select_inboxes_by_slug.
  rewrite conn_execute_query by assumption. now rewrite Hr.
Qed.

Lemma Inbox_is_enabled_run :
  forall d out s r0 rest,
    failed_transaction d = false ->
    filter (fun b => (i_slug b =? s)%string) (inboxes_table d) = r0 :: rest ->
    Inbox_is_enabled s (mkWorld d out) = (inr (i_enabled r0), mkWorld d out).
Proof.
  intros d out s r0 rest Hf Hr.
  unfold Inbox_is_enabled, try_except, bind, select_inboxes_by_slug.
  rewrite conn_execute_query by assumption. rewrite Hr. simpl.
  now destruct (i_enabled r0).
Qed.

Lemma Inbox_is_email_enabled_run :
  forall d out s r0 rest,
    failed_transaction d = false ->
    filter (fun b => (i_slug b =? s)%string) (inboxes_table d) = r0 :: rest ->
    Inbox_is_email_enabled s (mkWorld d out)
    = (inr (i_email_enabled r0), mkWorld d out).
Proof.
  intros d out s r0 rest Hf Hr.
  unfold Inbox_is_email_enabled, try_except, bind, select_inboxes_by_slug.
  rewrite conn_execute_query by assumption. now rewrite Hr.
Qed.

(** X6: registering a slug that does not exist for an account that is not
    linked inserts the mapping, prints and logs nothing, and every lookup
    then finds it: the wrapper resolves to the account id, [get_email]
    returns the email, [does_exist] and [is_linked] answer True, and the
    two flags read as the schema defaults.  The slugs registered before
    resolve as before. *)
Theorem store_then_lookup :
  forall w slug auth_id email,
    fst (Inbox_does_exist slug w) = inr false ->
    fst (Inbox_is_linked auth_id w) = inr false ->
    exists w',
      Inbox_store slug auth_id email w = (inr (Inbox_init slug), w') /\
      output w' = output w /\
      notes_table (conn w') = notes_table (conn w) /\
      Inbox_auth_id (Inbox_init slug) w' = (inr auth_id, w') /\
      Inbox_get_email slug w' = (inr email, w') /\
      Inbox_does_exist slug w' = (inr true, w') /\
      Inbox_is_linked auth_id w' = (inr true, w') /\
      Inbox_is_enabled slug w' = (inr (default_enabled (conn w)), w') /\
      Inbox_is_email_enabled slug w'
        = (inr (default_email_enabled (conn w)), w') /\
      (forall s a,
         fst (Inbox_auth_id (Inbox_init s) w) = inr a ->
         fst (Inbox_auth_id (Inbox_init s) w') = inr a).
Proof.
  intros w s a e Hs Ha.
  apply Inbox_does_exist_false in Hs. destruct Hs as [Hf Hr].
  apply Inbox_is_linked_inv in Ha. destruct Ha as [_ Hl].
  destruct w as [d out]. simpl in Hf, Hr, Hl.
  set (row := mkInboxRow s a e (default_email_enabled d) (default_enabled d)).
  set (d' := set_inboxes_table d (inboxes_table d ++ [row])).
  assert (Hf' : failed_transaction d' = false) by exact Hf.
  assert (Hr' : filter (fun b => (i_slug b =? s)%string) (inboxes_table d')
                = [row]).
  { simpl. rewrite filter_app, Hr. simpl. now rewrite String.eqb_refl. }
  exists (mkWorld d' out). split.
  { unfold Inbox_store, bind, try_except, conn_execute, insert_inbox. simpl.
    rewrite Hf, existsb_orb, (filter_nil_existsb _ _ Hr), Hl. reflexivity. }
  split; [reflexivity|]. split; [reflexivity|].
  split; [exact (Inbox_auth_id_run (Inbox_init s) d' out row [] Hf' Hr')|].
  split; [exact (Inbox_get_email_run d' out s row [] Hf' Hr')|].
  split; [rewrite Inbox_does_exist_run by exact Hf'; now rewrite Hr'|].
  split.
  { rewrite Inbox_is_linked_run by exact Hf'. simpl inboxes_table.
    rewrite filter_app. simpl. rewrite String.eqb_refl.
    rewrite length_app. simpl. rewrite Nat.add_1_r. reflexivity. }
  split; [exact (Inbox_is_enabled_run d' out s row [] Hf' Hr')|].
  split; [exact (Inbox_is_email_enabled_run d' out s row [] Hf' Hr')|].
  intros s' a' H. apply Inbox_auth_id_inv in H.
  destruct H as [_ [r0 [rest [Hr0 Ha0]]]]. simpl in Hr0.
  rewrite (Inbox_auth_id_run (Inbox_init s') d' out r0
             (rest ++ filter (fun b => (i_slug b =? s')%string) [row]) Hf').
  - simpl. now rewrite Ha0.
  - simpl inboxes_table. rewrite filter_app. simpl slug. now rewrite Hr0.
Qed.

Lemma store_then_lookup_witness :
  exists w',
    Inbox_store "jane" "auth0|9" "jane@example.org" sample_world
      = (inr (Inbox_init "jane"), w') /\
    Inbox_auth_id (Inbox_init "jane") w' = (inr "auth0|9"%string, w') /\
    Inbox_get_email "jane" w' = (inr "jane@example.org"%string, w') /\
    fst (Inbox_auth_id (Inbox_init "kenneth") w') = inr "auth0|1"%string.
Proof.
  destruct (store_then_lookup sample_world "jane" "auth0|9" "jane@example.org"
              eq_refl eq_refl)
    as [w' [H1 [_ [_ [H2 [H3 [_ [_ [_ [_ H4]]]]]]]]]].
  exists w'. repeat split; try assumption.
  apply H4. reflexivity.
Defined.



(** ** Setting a flag, then reading it *)

Lemma Inbox_does_exist_true :
  forall w s,
    fst (Inbox_does_exist s w) = inr true ->
    failed_transaction (conn w) = false /\
    exists r0 rest,
      filter (fun b => (i_slug b =? s)%string) (inboxes_table (conn w))
      = r0 :: rest.
Proof.
  intros [d out] s H. simpl.
  destruct (failed_transaction d) eqn:Hf.
  - unfold Inbox_does_exist, bind in H.
    rewrite conn_execute_failed in H by assumption. discriminate.
  - split; [reflexivity|].
    rewrite Inbox_does_exist_run in H by assumption. simpl in H.
    destruct (filter (fun b => (i_slug b =? s)%string) (inboxes_table d))
      as [|r0 rest]; [discriminate|]. now exists r0, rest.
Qed.

Lemma filter_map_keeps_slug :
  forall (f : InboxRow -> InboxRow) s l,
    (forall b, i_slug (f b) = i_slug b) ->
    filter (fun b => (i_slug b =? s)%string) (map f l)
    = map f (filter (fun b => (i_slug b =? s)%string) l).
Proof.
  intros f s l Hf. induction l as [|b l IH]; simpl; [reflexivity|].
  rewrite Hf. destruct (i_slug b =? s)%string; simpl; now rewrite IH.
Qed.

Lemma with_email_enabled_slug :
  forall v s b, i_slug (with_email_enabled v s b) = i_slug b.
Proof.
  intros v s b. unfold with_email_enabled.
  now destruct (i_slug b =? s)%string.
Qed.

Lemma with_enabled_slug :
  forall v s b, i_slug (with_enabled v s b) = i_slug b.
Proof.
  intros v s b. unfold with_enabled. now destruct (i_slug b =? s)%string.
Qed.

Lemma set_email_enabled_run :
  forall v s d out,
    failed_transaction d = false ->
    conn_execute (update_inboxes_set_email_enabled v s) (mkWorld d out)
    = (inr tt,
       mkWorld (set_inboxes_table d (map (with_email_enabled v s) (inboxes_table d)))
         out).
Proof.
  intros v s d out Hf. unfold conn_execute, update_inboxes_set_email_enabled.
  simpl. now rewrite Hf.
Qed.

Lemma set_enabled_healthy_run :
  forall v s d out,
    failed_transaction d = false ->
    conn_execute (update_inboxes_set_enabled v s) (mkWorld d out)
    = (inr tt,
       mkWorld (set_inboxes_table d (map (with_enabled v s) (inboxes_table d)))
         out).
Proof.
  intros v s d out Hf. unfold conn_execute, update_inboxes_set_enabled.
  simpl. now rewrite Hf.
Qed.

(** The first row of a slug after a flag UPDATE on [s]. *)
Lemma first_row_after_update :
  forall (f : InboxRow -> InboxRow) s' l r0 rest,
    (forall b, i_slug (f b) = i_slug b) ->
    filter (fun b => (i_slug b =? s')%string) l = r0 :: rest ->
    filter (fun b => (i_slug b =? s')%string) (map f l) = f r0 :: map f rest.
Proof.
  intros f s' l r0 rest Hf Hr. rewrite filter_map_keeps_slug by assumption.
  now rewrite Hr.
Qed.

Lemma filter_head_slug :
  forall s l r0 rest,
    filter (fun b => (i_slug b =? s)%string) l = r0 :: rest -> i_slug r0 = s.
Proof.
  intros s l r0 rest H.
  assert (Hin : In r0 (filter (fun b => (i_slug b =? s)%string) l))
    by (rewrite H; now left).
  apply filter_In in Hin. now apply String.eqb_eq.
Qed.

(** A flag read of any slug after an UPDATE that keeps the flag it reads
    on the rows of that slug. *)
Lemma is_enabled_after_update :
  forall (f : InboxRow -> InboxRow) d out s',
    failed_transaction d = false ->
    (forall b, i_slug (f b) = i_slug b) ->
    (forall b, i_slug b = s' -> i_enabled (f b) = i_enabled b) ->
    fst (Inbox_is_enabled s'
           (mkWorld (set_inboxes_table d (map f (inboxes_table d))) out))
    = fst (Inbox_is_enabled s' (mkWorld d out)).
Proof.
  intros f d out s' Hf Hslug Hkeep.
  destruct (filter (fun b => (i_slug b =? s')%string) (inboxes_table d))
    as [|r0 rest] eqn:Hr.
  - unfold Inbox_is_enabled, try_except, bind, select_inboxes_by_slug.
    rewrite !conn_execute_query by assumption. simpl inboxes_table.
    rewrite filter_map_keeps_slug by assumption. now rewrite Hr.
  - rewrite (Inbox_is_enabled_run d out s' r0 rest Hf Hr).
    rewrite (Inbox_is_enabled_run
               (set_inboxes_table d (map f (inboxes_table d))) out s' (f r0)
               (map f rest) Hf
               (first_row_after_update f s' _ r0 rest Hslug Hr)).
    simpl. now rewrite (Hkeep r0 (filter_head_slug s' _ r0 rest Hr)).
Qed.

Lemma is_email_enabled_after_update :
  forall (f : InboxRow -> InboxRow) d out s',
    failed_transaction d = false ->
    (forall b, i_slug (f b) = i_slug b) ->
    (forall b, i_slug b = s' -> i_email_enabled (f b) = i_email_enabled b) ->
    fst (Inbox_is_email_enabled s'
           (mkWorld (set_inboxes_table d (map f (inboxes_table d))) out))
    = fst (Inbox_is_email_enabled s' (mkWorld d out)).
Proof.
  intros f d out s' Hf Hslug Hkeep.
  destruct (filter (fun b => (i_slug b =? s')%string) (inboxes_table d))
    as [|r0 rest] eqn:Hr.
  - unfold Inbox_is_email_enabled, try_except, bind, select_inboxes_by_slug.
    rewrite !conn_execute_query by assumption. simpl inboxes_table.
    rewrite filter_map_keeps_slug by assumption. now rewrite Hr.
  - rewrite (Inbox_is_email_enabled_run d out s' r0 rest Hf Hr).
    rewrite (Inbox_is_email_enabled_run
               (set_inboxes_table d (map f (inboxes_table d))) out s' (f r0)
               (map f rest) Hf
               (first_row_after_update f s' _ r0 rest Hslug Hr)).
    simpl. now rewrite (Hkeep r0 (filter_head_slug s' _ r0 rest Hr)).
Qed.

Lemma with_email_enabled_frame :
  forall v s l,
    same_but_email_enabled s l (map (with_email_enabled v s) l).
Proof.
  intros v s l. unfold same_but_email_enabled.
  induction l as [|b l IH]; simpl; constructor; auto.
  unfold with_email_enabled.
  destruct (String.eqb_spec (i_slug b) s) as [E|E]; simpl;
    repeat split; auto; intros Hn; contradiction.
Qed.

(** X8: for a registered slug on a healthy connection,
    [Inbox.enable_email] and [Inbox.disable_email] succeed and
    [Inbox.is_email_enabled] then reads True, respectively False.  They
    change no other column of [inboxes], no row of another slug, no note
    and no log entry: [Inbox.is_enabled] of every slug and
    [Inbox.is_email_enabled] of every other slug read as before. *)
Theorem email_toggle_reads_back :
  forall w slug,
    fst (Inbox_does_exist slug w) = inr true ->
    exists on off,
      Inbox_enable_email slug w = (inr tt, on) /\
      Inbox_disable_email slug w = (inr tt, off) /\
      Inbox_is_email_enabled slug on = (inr true, on) /\
      Inbox_is_email_enabled slug off = (inr false, off) /\
      (forall s,
         fst (Inbox_is_enabled s on) = fst (Inbox_is_enabled s w) /\
         fst (Inbox_is_enabled s off) = fst (Inbox_is_enabled s w)) /\
      (forall s,
         s <> slug ->
         fst (Inbox_is_email_enabled s on) = fst (Inbox_is_email_enabled s w) /\
         fst (Inbox_is_email_enabled s off) = fst (Inbox_is_email_enabled s w)) /\
      same_but_email_enabled slug (inboxes_table (conn w)) (inboxes_table (conn on)) /\
      same_but_email_enabled slug (inboxes_table (conn w)) (inboxes_table (conn off)) /\
      notes_table (conn on) = notes_table (conn w) /\
      notes_table (conn off) = notes_table (conn w) /\
      output on = output w /\
      output off = output w.
Proof.
  intros w s H. apply Inbox_does_exist_true in H.
  destruct H as [Hf [r0 [rest Hr]]]. destruct w as [d out]. simpl in Hf, Hr.
  pose proof (with_email_enabled_slug true s) as Hs1.
  pose proof (with_email_enabled_slug false s) as Hs0.
  assert (Hset : forall v,
             i_email_enabled (with_email_enabled v s r0) = v).
  { intros v. unfold with_email_enabled.
    rewrite (filter_head_slug s _ r0 rest Hr), String.eqb_refl. reflexivity. }
  assert (Hen : forall v b, i_enabled (with_email_enabled v s b) = i_enabled b).
  { intros v b. unfold with_email_enabled. now destruct (i_slug b =? s)%string. }
  assert (Hother : forall v s' b,
             s' <> s -> i_slug b = s' ->
             i_email_enabled (with_email_enabled v s b) = i_email_enabled b).
  { intros v s' b Hne Hb. unfold with_email_enabled.
    destruct (String.eqb_spec (i_slug b) s); [congruence|reflexivity]. }
  eexists. eexists.
  split; [exact (set_email_enabled_run true s d out Hf)|].
  split; [exact (set_email_enabled_run false s d out Hf)|].
  split.
  { rewrite (Inbox_is_email_enabled_run
               (set_inboxes_table d
                  (map (with_email_enabled true s) (inboxes_table d)))
               out s _ _ Hf
               (first_row_after_update _ s _ r0 rest Hs1 Hr)).
    now rewrite Hset. }
  split.
  { rewrite (Inbox_is_email_enabled_run
               (set_inboxes_table d
                  (map (with_email_enabled false s) (inboxes_table d)))
               out s _ _ Hf
               (first_row_after_update _ s _ r0 rest Hs0 Hr)).
    now rewrite Hset. }
  split.
  { intros s'. split; apply is_enabled_after_update; auto. }
  split.
  { intros s' Hne. split; apply is_email_enabled_after_update; eauto. }
  simpl. repeat split; auto using with_email_enabled_frame.
Qed.

Lemma email_toggle_reads_back_witness :
  exists on off,
    Inbox_enable_email "kenneth" sample_world = (inr tt, on) /\
    Inbox_disable_email "kenneth" sample_world = (inr tt, off) /\
    Inbox_is_email_enabled "kenneth" on = (inr true, on) /\
    Inbox_is_email_enabled "kenneth" off = (inr false, off) /\
    fst (Inbox_is_enabled "kenneth" off) = inr true.
Proof.
  destruct (email_toggle_reads_back sample_world "kenneth" eq_refl)
    as [on [off [H1 [H2 [H3 [H4 [H5 _]]]]]]].
  exists on, off. repeat split; try assumption.
  rewrite (proj2 (H5 "kenneth"%string)). reflexivity.
Defined.

(** X9: for a registered slug on a healthy connection,
    [Inbox.enable_account] and [Inbox.disable_account] succeed and
    [Inbox.is_enabled] then reads True, respectively False, while
    [Inbox.is_email_enabled] of every slug and [Inbox.is_enabled] of every
    other slug read as before. *)
Theorem account_toggle_reads_back :
  forall w slug,
    fst (Inbox_does_exist slug w) = inr true ->
    exists on off,
      Inbox_enable_account slug w = (inr tt, on) /\
      Inbox_disable_account slug w = (inr tt, off) /\
      Inbox_is_enabled slug on = (inr true, on) /\
      Inbox_is_enabled slug off = (inr false, off) /\
      (forall s,
         fst (Inbox_is_email_enabled s on) = fst (Inbox_is_email_enabled s w) /\
         fst (Inbox_is_email_enabled s off) = fst (Inbox_is_email_enabled s w)) /\
      (forall s,
         s <> slug ->
         fst (Inbox_is_enabled s on) = fst (Inbox_is_enabled s w) /\
         fst (Inbox_is_enabled s off) = fst (Inbox_is_enabled s w)).
Proof.
  intros w s H. apply Inbox_does_exist_true in H.
  destruct H as [Hf [r0 [rest Hr]]]. destruct w as [d out]. simpl in Hf, Hr.
  pose proof (with_enabled_slug true s) as Hs1.
  pose proof (with_enabled_slug false s) as Hs0.
  assert (Hset : forall v, i_enabled (with_enabled v s r0) = v).
  { intros v. unfold with_enabled.
    rewrite (filter_head_slug s _ r0 rest Hr), String.eqb_refl. reflexivity. }
  assert (Hem : forall v b,
             i_email_enabled (with_enabled v s b) = i_email_enabled b).
  { intros v b. unfold with_enabled. now destruct (i_slug b =? s)%string. }
  assert (Hother : forall v s' b,
             s' <> s -> i_slug b = s' ->
             i_enabled (with_enabled v s b) = i_enabled b).
  { intros v s' b Hne Hb. unfold with_enabled.
    destruct (String.eqb_spec (i_slug b) s); [congruence|reflexivity]. }
  eexists. eexists.
  split; [exact (set_enabled_healthy_run true s d out Hf)|].
  split; [exact (set_enabled_healthy_run false s d out Hf)|].
  split.
  { rewrite (Inbox_is_enabled_run
               (set_inboxes_table d (map (with_enabled true s) (inboxes_table d)))
               out s _ _ Hf
               (first_row_after_update _ s _ r0 rest Hs1 Hr)).
    now rewrite Hset. }
  split.
  { rewrite (Inbox_is_enabled_run
               (set_inboxes_table d (map (with_enabled false s) (inboxes_table d)))
               out s _ _ Hf
               (first_row_after_update _ s _ r0 rest Hs0 Hr)).
    now rewrite Hset. }
  split.
  { intros s'. split; apply is_email_enabled_after_update; auto. }
  intros s' Hne. split; apply is_enabled_after_update; eauto.
Qed.

Lemma account_toggle_reads_back_witness :
  exists on off,
    Inbox_enable_account "kenneth" sample_world = (inr tt, on) /\
    Inbox_disable_account "kenneth" sample_world = (inr tt, off) /\
    Inbox_is_enabled "kenneth" on = (inr true, on) /\
    Inbox_is_enabled "kenneth" off = (inr false, off) /\
    fst (Inbox_is_email_enabled "kenneth" off) = inr true.
Proof.
  destruct (account_toggle_reads_back sample_world "kenneth" eq_refl)
    as [on [off [H1 [H2 [H3 [H4 [H5 _]]]]]]].
  exists on, off. repeat split; try assumption.
  rewrite (proj2 (H5 "kenneth"%string)). reflexivity.
Defined.

(** ** Setting a flag twice, or for nobody *)

Lemma map_id_when_no_row :
  forall (f : InboxRow -> InboxRow) s l,
    (forall b, (i_slug b =? s)%string = false -> f b = b) ->
    filter (fun b => (i_slug b =? s)%string) l = [] ->
    map f l = l.
Proof.
  intros f s l Hf. induction l as [|b l IH]; simpl; [reflexivity|].
  destruct (i_slug b =? s)%string eqn:E; [discriminate|].
  intros H. now rewrite (Hf b E), (IH H).
Qed.

Lemma set_inboxes_table_same :
  forall d, set_inboxes_table d (inboxes_table d) = d.
Proof. intros []. reflexivity. Qed.

(** X10: on a slug that is not registered the four flag mutations are
    silent no-ops: they return normally and change nothing. *)
Theorem flag_toggles_unregistered_noop :
  forall w slug,
    fst (Inbox_does_exist slug w) = inr false ->
    Inbox_enable_email slug w = (inr tt, w) /\
    Inbox_disable_email slug w = (inr tt, w) /\
    Inbox_enable_account slug w = (inr tt, w) /\
    Inbox_disable_account slug w = (inr tt, w).
Proof.
  intros w s H. apply Inbox_does_exist_false in H. destruct H as [Hf Hr].
  destruct w as [d out]. simpl in Hf, Hr.
  assert (He : forall v, map (with_email_enabled v s) (inboxes_table d)
                         = inboxes_table d).
  { intros v. apply map_id_when_no_row with (s := s); [|exact Hr].
    intros b E. unfold with_email_enabled. now rewrite E. }
  assert (Ha : forall v, map (with_enabled v s) (inboxes_table d)
                         = inboxes_table d).
  { intros v. apply map_id_when_no_row with (s := s); [|exact Hr].
    intros b E. unfold with_enabled. now rewrite E. }
  unfold Inbox_enable_email, Inbox_disable_email, Inbox_enable_account,
    Inbox_disable_account.
  rewrite !set_email_enabled_run, !set_enabled_healthy_run by assumption.
  rewrite !He, !Ha, set_inboxes_table_same. repeat split.
Qed.

Lemma flag_toggles_unregistered_noop_witness :
  Inbox_enable_email "nobody" sample_world = (inr tt, sample_world) /\
  Inbox_disable_account "nobody" sample_world = (inr tt, sample_world).
Proof.
  destruct (flag_toggles_unregistered_noop sample_world "nobody" eq_refl)
    as [H1 [_ [_ H4]]].
  split; assumption.
Defined.

Lemma set_email_enabled_twice :
  forall v1 v2 s w,
    snd (conn_execute (update_inboxes_set_email_enabled v2 s)
           (snd (conn_execute (update_inboxes_set_email_enabled v1 s) w)))
    = snd (conn_execute (update_inboxes_set_email_enabled v2 s) w).
Proof.
  intros v1 v2 s [d out].
  destruct (failed_transaction d) eqn:Hf.
  - rewrite (conn_execute_failed (update_inboxes_set_email_enabled v1 s)
               (mkWorld d out) Hf). simpl snd.
    reflexivity.
  - rewrite (set_email_enabled_run v1 s d out Hf). simpl snd.
    rewrite set_email_enabled_run by exact Hf.
    rewrite (set_email_enabled_run v2 s d out Hf). simpl.
    rewrite map_map. f_equal. unfold set_inboxes_table. simpl. f_equal.
    apply map_ext. intros b. unfold with_email_enabled.
    destruct (i_slug b =? s)%string eqn:E; simpl; now rewrite E.
Qed.

Lemma set_enabled_twice :
  forall v1 v2 s w,
    snd (conn_execute (update_inboxes_set_enabled v2 s)
           (snd (conn_execute (update_inboxes_set_enabled v1 s) w)))
    = snd (conn_execute (update_inboxes_set_enabled v2 s) w).
Proof.
  intros v1 v2 s [d out].
  destruct (failed_transaction d) eqn:Hf.
  - rewrite (conn_execute_failed (update_inboxes_set_enabled v1 s)
               (mkWorld d out) Hf). simpl snd.
    reflexivity.
  - rewrite (set_enabled_healthy_run v1 s d out Hf). simpl snd.
    rewrite set_enabled_healthy_run by exact Hf.
    rewrite (set_enabled_healthy_run v2 s d out Hf). simpl.
    rewrite map_map. f_equal. unfold set_inboxes_table. simpl. f_equal.
    apply map_ext. intros b. unfold with_enabled.
    destruct (i_slug b =? s)%string eqn:E; simpl; now rewrite E.
Qed.

(** X11: the flag mutations are idempotent and the last one wins: after
    two mutations of the same flag of a slug the state is the one the
    second mutation alone produces, for the email flag and for the account
    flag, in every state. *)
Theorem flag_toggles_last_one_wins :
  forall w slug,
    (snd (Inbox_enable_email slug (snd (Inbox_enable_email slug w)))
       = snd (Inbox_enable_email slug w) /\
     snd (Inbox_disable_email slug (snd (Inbox_disable_email slug w)))
       = snd (Inbox_disable_email slug w) /\
     snd (Inbox_enable_email slug (snd (Inbox_disable_email slug w)))
       = snd (Inbox_enable_email slug w) /\
     snd (Inbox_disable_email slug (snd (Inbox_enable_email slug w)))
       = snd (Inbox_disable_email slug w)) /\
    (snd (Inbox_enable_account slug (snd (Inbox_enable_account slug w)))
       = snd (Inbox_enable_account slug w) /\
     snd (Inbox_disable_account slug (snd (Inbox_disable_account slug w)))
       = snd (Inbox_disable_account slug w) /\
     snd (Inbox_enable_account slug (snd (Inbox_disable_account slug w)))
       = snd (Inbox_enable_account slug w) /\
     snd (Inbox_disable_account slug (snd (Inbox_enable_account slug w)))
       = snd (Inbox_disable_account slug w)).
Proof.
  intros w s.
  unfold Inbox_enable_email, Inbox_disable_email, Inbox_enable_account,
    Inbox_disable_account.
  repeat split; first [apply set_email_enabled_twice | apply set_enabled_twice].
Qed.

(** ** [Note.archive] *)

Lemma Note_archive_run :
  forall d out self u,
    failed_transaction d = false ->
    uuid self = Some u ->
    Note_archive self (mkWorld d out)
    = (inr tt,
       mkWorld (set_notes_table d (map (with_archived u) (notes_table d))) out).
Proof.
  intros d out self u Hf Hu. unfold Note_archive. rewrite Hu.
  unfold conn_execute, update_notes_set_archived. simpl. now rewrite Hf.
Qed.

Lemma with_archived_uuid :
  forall u n, n_uuid (with_archived u n) = n_uuid n.
Proof.
  intros u n. unfold with_archived. now destruct (n_uuid n =? u).
Qed.






Lemma limit_offset_incl :
  forall {A} (limit offset : Z) (rows result : list A),
    limit_offset limit offset rows = inr result ->
    forall x, In x result -> In x rows.
Proof.
  intros A l o rows result H x Hx. unfold limit_offset in H.
  destruct (o <? 0)%Z; [discriminate|].
  destruct (l <? 0)%Z; [discriminate|].
  injection H as <-. now apply In_firstn, In_skipn in Hx.
Qed.

Lemma archived_row_not_listed :
  forall u a l n,
    In n (filter (of_inbox a false) (map (with_archived u) l)) ->
    n_uuid n <> u.
Proof.
  intros u a l n H. apply filter_In in H. destruct H as [Hin Hp].
  apply in_map_iff in Hin. destruct Hin as [m [<- _]].
  unfold with_archived in *. destruct (Nat.eqb_spec (n_uuid m) u) as [E|E].
  - unfold of_inbox in Hp. simpl in Hp. now rewrite andb_false_r in Hp.
  - exact E.
Qed.

Lemma with_archived_other :
  forall u l,
    ~ In u (map n_uuid l) -> map (with_archived u) l = l.
Proof.
  intros u l H. induction l as [|n l IH]; simpl; [reflexivity|].
  simpl in H. unfold with_archived at 1.
  destruct (Nat.eqb_spec (n_uuid n) u) as [E|E]; [tauto|].
  rewrite IH; tauto.
Qed.

(** Archiving the one row of [u], a listed row, takes one row off the
    listing. *)
Lemma archive_count :
  forall u a l r,
    NoDup (map n_uuid l) ->
    In r l -> n_uuid r = u -> of_inbox a false r = true ->
    S (List.length (filter (of_inbox a false) (map (with_archived u) l)))
    = List.length (filter (of_inbox a false) l).
Proof.
  intros u a l r Hnd Hin Hu Hp. induction l as [|n l IH]; [destruct Hin|].
  simpl in Hnd. inversion Hnd as [|x xs Hnin Hnd']; subst x xs.
  simpl. destruct (Nat.eqb_spec (n_uuid n) u) as [E|E].
  - assert (r = n) as ->.
    { destruct Hin as [->|Hin]; [reflexivity|].
      exfalso. apply Hnin. rewrite E, <- Hu. now apply in_map. }
    rewrite Hp. rewrite with_archived_other by (rewrite <- E; exact Hnin).
    unfold with_archived. rewrite (proj2 (Nat.eqb_eq _ _) E).
    unfold of_inbox at 1. simpl. rewrite andb_false_r. reflexivity.
  - destruct Hin as [->|Hin]; [contradiction|].
    unfold with_archived at 1. rewrite (proj2 (Nat.eqb_neq _ _) E).
    destruct (of_inbox a false n); simpl; now rewrite (IH Hnd' Hin).
Qed.

(** X13: archiving a note takes it from the listing to the archive.  If
    the uuid of the note belongs to a non-archived row of a registered
    inbox, then after [Note.archive] no page of [Inbox.notes] of that
    inbox lists the uuid, total_notes is one less than the count before,
    and [Inbox.archived_notes] contains the uuid. *)
Theorem archive_moves_note_to_archive :
  forall w note self u auth_id r,
    uuid note = Some u ->
    fst (Inbox_auth_id self w) = inr auth_id ->
    uuids_unique (conn w) = true ->
    In r (notes_table (conn w)) ->
    n_uuid r = u ->
    of_inbox auth_id false r = true ->
    exists w',
      Note_archive note w = (inr tt, w') /\
      (forall page page_size p,
         fst (Inbox_notes self page page_size w') = inr p ->
         ~ In (Some u) (map uuid (notes p)) /\
         (total_notes p + 1
          = Z.of_nat (List.length (filter (of_inbox auth_id false)
                                     (notes_table (conn w)))))%Z) /\
      exists ns,
        Inbox_archived_notes self w' = (inr ns, w') /\
        In (Some u) (map uuid ns).
Proof.
  intros w note self u a r Hu Ha Huniq Hin Hr Hp.
  apply Inbox_auth_id_inv in Ha. destruct Ha as [Hf [r0 [rest [Hr0 Ha]]]].
  destruct w as [d out]. simpl in Hf, Hr0, Hin, Huniq. subst a.
  set (d' := set_notes_table d (map (with_archived u) (notes_table d))).
  assert (Hf' : failed_transaction d' = false) by exact Hf.
  assert (Hr0' : filter (fun b => (i_slug b =? slug self)%string)
                   (inboxes_table d') = r0 :: rest) by exact Hr0.
  exists (mkWorld d' out). split; [now apply Note_archive_run|]. split.
  - intros pg ps p Hp'.
    rewrite (Inbox_notes_run self d' out r0 rest pg ps Hf' Hr0') in Hp'.
    destruct (limit_offset ps ((pg - 1) * ps) _) as [e|result] eqn:Hl;
      [discriminate|].
    destruct (ps =? 0)%Z; [discriminate|].
    simpl in Hp'. injection Hp' as <-. simpl. split.
    + rewrite map_map. simpl. intros Hx. apply in_map_iff in Hx.
      destruct Hx as [n [Hn Hx]]. injection Hn as Hn.
      apply (limit_offset_incl _ _ _ _ Hl) in Hx.
      apply (Permutation_in _ (order_by_perm _)) in Hx.
      now apply archived_row_not_listed in Hx.
    + rewrite <- (archive_count u (i_auth_id r0) (notes_table d) r
                    (distinct_NoDup _ Huniq) Hin Hr Hp).
      rewrite Nat2Z.inj_succ. lia.
  - eexists. split.
    + apply Inbox_archived_notes_run with (r0 := r0) (rest := rest); assumption.
    + rewrite map_rev, map_map. simpl. apply -> in_rev.
      apply in_map_iff. exists (with_archived u r). split.
      * now rewrite with_archived_uuid, Hr.
      * apply filter_In. split; [now apply in_map|].
        unfold with_archived. rewrite (proj2 (Nat.eqb_eq _ _) Hr).
        unfold of_inbox in *. simpl.
        apply andb_true_iff in Hp. now rewrite (proj1 Hp).
Qed.

Lemma archive_moves_note_to_archive_witness :
  let note := Note_from_inbox "kenneth" (Some "merci"%string) (Some "bob"%string)
                (Some false) (Some 1) None None in
  exists w',
    Note_archive note listing_world = (inr tt, w') /\
    (forall p,
       fst (Inbox_notes (Inbox_init "kenneth") 1 10 w') = inr p ->
       ~ In (Some 1) (map uuid (notes p)) /\ total_notes p = 2%Z) /\
    exists ns,
      Inbox_archived_notes (Inbox_init "kenneth") w' = (inr ns, w') /\
      In (Some 1) (map uuid ns).
Proof.
  intros note.
  destruct (archive_moves_note_to_archive listing_world note
              (Inbox_init "kenneth") 1 "auth0|1"
              (sample_note 1 "merci" "bob" false 30)
              eq_refl eq_refl eq_refl
              (or_intror (or_introl eq_refl)) eq_refl eq_refl)
    as [w' [H1 [H2 H3]]].
  exists w'. split; [exact H1|]. split; [|exact H3].
  intros p Hp. destruct (H2 1%Z 10%Z p Hp) as [Ha Hb].
  split; [exact Ha|]. simpl in Hb. lia.
Defined.

(** ** [Note.store] only appends *)

Lemma insert_note_row_outcome :
  forall b by_ auth audio d out,
    failed_transaction d = false ->
    (exists e,
       conn_execute (insert_note_row b by_ auth audio) (mkWorld d out)
       = (inl e, mkWorld d out)) \/
    conn_execute (insert_note_row b by_ auth audio) (mkWorld d out)
    = (inr (next_uuid d),
       mkWorld (after_insert d (mkNoteRow (next_uuid d) b by_ auth false (clock d) audio))
         out).
Proof.
  intros b by_ auth audio d out Hf. unfold conn_execute, insert_note_row. simpl.
  rewrite Hf. destruct (existsb _ _); [left; eauto | right; reflexivity].
Qed.

Lemma inbox_auth_id_outcome :
  forall i w,
    (exists e, inbox_auth_id i w = (inl e, w)) \/
    (exists a, inbox_auth_id i w = (inr a, w)).
Proof.
  intros [i|] w; simpl.
  - pose proof (read_only_auth_id i w) as H.
    destruct (Inbox_auth_id i w) as [[e|a] w']; simpl in H; subst w'; eauto.
  - left. now exists AttributeError.
Qed.

(** The two ways [Note.store] can end: an exception with the tables as
    they were, or one new row. *)
Lemma Note_store_outcome :
  forall self w,
    (exists e, fst (Note_store self w) = inl e /\
               conn (snd (Note_store self w)) = conn w) \/
    (exists auth audio,
       fst (Note_store self w) = inr (stored self (next_uuid (conn w))) /\
       conn (snd (Note_store self w))
       = after_insert (conn w) (new_row (conn w) self auth audio)).
Proof.
  intros self [d out]. simpl conn.
  destruct (failed_transaction d) eqn:Hf.
  { left. exists InFailedSqlTransaction.
    rewrite Note_store_failed by exact Hf. split; reflexivity. }
  unfold Note_store, try_except, bind, check_column, ret, raise, emit.
  rewrite conn_execute_query by assumption.
  destruct (audio_path_column d).
  - destruct (truthy (audio_path self)); cbv beta iota.
    + destruct (inbox_auth_id_outcome (inbox self) (mkWorld d out))
        as [[e He]|[a Ha]].
      * rewrite He. left. exists e. split; reflexivity.
      * rewrite Ha. cbv beta iota. unfold insert_note_with_audio.
        destruct (insert_note_row_outcome (body self) (byline self) a
                    (audio_path self) d out Hf) as [[e He]|Hok].
        -- rewrite He. left. exists e. split; reflexivity.
        -- rewrite Hok. right. exists a, (audio_path self). split; reflexivity.
    + left. exists UnboundLocalError. split; reflexivity.
  - cbv beta iota. cbn [conn output].
    set (out' := out ++ [Logged LvlError
                           (Text "Audio path column not available - storing note without audio")]).
    destruct (inbox_auth_id_outcome (inbox self) (mkWorld d out'))
      as [[e He]|[a Ha]].
    * rewrite He. left. exists e. split; reflexivity.
    * rewrite Ha. cbv beta iota. unfold insert_note.
      destruct (insert_note_row_outcome (body self) (byline self) a None d
                  out' Hf) as [[e He]|Hok].
      -- rewrite He. left. exists e. split; reflexivity.
      -- rewrite Hok. right. exists a, None. split; reflexivity.
Qed.

(** X14: [Note.store] never changes or removes a stored row.  Whatever
    the note and the state, [inboxes] stays as it was and the new [notes]
    table is the old one followed by at most one row.  When the call
    raises nothing is added; when it returns, the one new row carries the
    body and byline of the note, is not archived, is stamped with the
    engine's clock, and its uuid is the one set on the returned note.  The
    key of [notes] (distinct uuids, all handed out by the generator) is
    kept. *)
Theorem store_only_appends :
  forall w self,
    let w' := snd (Note_store self w) in
    inboxes_table (conn w') = inboxes_table (conn w) /\
    (exists added,
       notes_table (conn w') = notes_table (conn w) ++ added /\
       match fst (Note_store self w) with
       | inl _ => added = []
       | inr n =>
           exists r,
             added = [r] /\
             uuid n = Some (n_uuid r) /\
             n_body r = body self /\
             n_byline r = byline self /\
             n_archived r = false /\
             n_timestamp r = clock (conn w)
       end) /\
    (uuids_fresh (conn w) = true ->
     uuids_unique (conn w) = true ->
     uuids_fresh (conn w') = true /\ uuids_unique (conn w') = true).
Proof.
  intros w self w'. subst w'.
  destruct (Note_store_outcome self w) as [[e [He Hc]]|[a [au [Hok Hc]]]].
  - rewrite He, Hc. split; [reflexivity|]. split.
    + exists []. now rewrite app_nil_r.
    + tauto.
  - rewrite Hok, Hc. split; [reflexivity|]. split.
    + eexists. split; [reflexivity|]. eexists. split; [reflexivity|].
      repeat split.
    + intros Hfresh Huniq. now apply after_insert_keeps_key.
Qed.

Lemma store_only_appends_witness :
  let note := Note_from_inbox "kenneth" (Some "hi"%string) (Some "ann"%string)
                (Some false) None None None in
  let w' := snd (Note_store note listing_world) in
  uuids_fresh (conn w') = true /\ uuids_unique (conn w') = true.
Proof.
  intros note w'.
  apply (store_only_appends listing_world note); reflexivity.
Defined.

(** ** A submitted note is listed *)




(** ** Sizes of the pages *)



(** ** [Inbox.search_notes]: the empty page, the empty string, the order *)









Lemma NoDup_page :
  forall {A} (n m : nat) (l : list A),
    NoDup l -> NoDup (firstn n (skipn m l)).
Proof.
  intros A n m l H.
  rewrite <- (firstn_skipn m l) in H. apply NoDup_app_remove_l in H.
  rewrite <- (firstn_skipn n (skipn m l)) in H.
  now apply NoDup_app_remove_r in H.
Qed.



(** ** [Inbox.export] *)



(** ** The audio path *)

(** X21: what becomes of a non-empty audio path given to
    [Inbox.submit_note] for a registered inbox.  The returned Note keeps
    it.  The stored row has it when [notes] has the audio column and has
    none when the column is missing: the path is then dropped without an
    exception.  [Note.fetch] on the returned uuid gives the body and the
    byline back and never the audio path. *)
Theorem submit_note_audio_path :
  forall w self b by_ audio,
    failed_transaction (conn w) = false ->
    uuids_fresh (conn w) = true ->
    registered (conn w) (slug self) = true ->
    truthy audio = true ->
    exists note w1 row fetched,
      Inbox_submit_note self b by_ audio w = (inr note, w1) /\
      audio_path note = audio /\
      uuid note = Some (n_uuid row) /\
      notes_table (conn w1) = notes_table (conn w) ++ [row] /\
      n_audio_path row = (if audio_path_column (conn w) then audio else None) /\
      Note_fetch (n_uuid row) w1 = (inr fetched, w1) /\
      body fetched = b /\
      byline fetched = by_ /\
      audio_path fetched = None.
Proof.
  intros [d out] self b by_ au Hf Hu Hreg Ht. simpl in Hf, Hu, Hreg.
  destruct (registered_filter d (slug self) Hreg) as [r0 [rest Hr]].
  set (note := Note_from_inbox (slug self) b by_ (Some false) None None au).
  assert (Hfetch : forall audio' out',
             let row := new_row d note (i_auth_id r0) audio' in
             Note_fetch (next_uuid d) (mkWorld (after_insert d row) out')
             = (inr (mkNote b by_ None None (Some (next_uuid d)) None None),
                mkWorld (after_insert d row) out')).
  { intros audio' out' row.
    rewrite Note_fetch_run by exact Hf.
    change (notes_table (after_insert d row)) with (notes_table d ++ [row]).
    rewrite filter_app_single; [reflexivity|apply (fresh_no_row d Hu)|].
    simpl. apply Nat.eqb_refl. }
  destruct (audio_path_column d) eqn:Hc.
  - pose proof (Note_store_with_audio d out note (Inbox_init (slug self)) r0
                  rest Hf Hu eq_refl Hr Hc Ht) as Hrun.
    eexists. eexists. exists (new_row d note (i_auth_id r0) au). eexists.
    split; [exact Hrun|]. simpl conn. rewrite Hc.
    do 4 (split; [reflexivity|]). split; [apply Hfetch|].
    split; [|split]; reflexivity.
  - pose proof (Note_store_without_column d out note (Inbox_init (slug self))
                  r0 rest Hf Hu eq_refl Hr Hc) as Hrun.
    eexists. eexists. exists (new_row d note (i_auth_id r0) None). eexists.
    split; [exact Hrun|]. simpl conn. rewrite Hc.
    do 4 (split; [reflexivity|]). split; [apply Hfetch|].
    split; [|split]; reflexivity.
Qed.

Lemma submit_note_audio_path_witness :
  (exists note w1 row,
     Inbox_submit_note (Inbox_init "kenneth") (Some "hi"%string)
       (Some "ann"%string) (Some "a.webm"%string) audio_world = (inr note, w1) /\
     notes_table (conn w1) = [row] /\
     n_audio_path row = Some "a.webm"%string) /\
  (exists note w1 row,
     Inbox_submit_note (Inbox_init "kenneth") (Some "hi"%string)
       (Some "ann"%string) (Some "a.webm"%string) sample_world = (inr note, w1) /\
     audio_path note = Some "a.webm"%string /\
     notes_table (conn w1) = [row] /\
     n_audio_path row = None).
Proof.
  split.
  - destruct (submit_note_audio_path audio_world (Inbox_init "kenneth")
                (Some "hi"%string) (Some "ann"%string) (Some "a.webm"%string)
                eq_refl eq_refl eq_refl eq_refl)
      as [note [w1 [row [fetched [H1 [_ [_ [H4 [H5 _]]]]]]]]].
    exists note, w1, row. repeat split; assumption.
  - destruct (submit_note_audio_path sample_world (Inbox_init "kenneth")
                (Some "hi"%string) (Some "ann"%string) (Some "a.webm"%string)
                eq_refl eq_refl eq_refl eq_refl)
      as [note [w1 [row [fetched [H1 [H2 [_ [H4 [H5 _]]]]]]]]].
    exists note, w1, row. repeat split; assumption.
Defined.

(** ** A search finds listed notes only *)


